(** * sqldef: the SQL Server adapter and the mysqldef option parser

    A shallow embedding of [adapter/mssql/mssql.go] and of
    [cmd/mysqldef/mysqldef.go].  Go strings are byte strings ([string]);
    Go maps are [gmap]s; slices are lists, indexed with stdpp's lookup and
    insert; loops that are not structurally recursive carry the number of
    iterations they may still make and return [None] when it runs out. *)

From Stdlib Require Import ZArith Ascii String.
From stdpp Require Import gmap strings list fin_maps sorting relations pretty.

(** ** Dependency order of the tables ([TableNames]) *)

Module TableOrder.

(** The state of the two nested loops: the slice [tables] that shrinks, the
    set [addedTables] (a [map[string]bool] that only ever holds [true]) and
    the slice [dependencyOrderedTables] that grows. *)
Record state := State {
  tables : list string;
  addedTables : gmap string bool;
  dependencyOrderedTables : list string
}.

(** [foreignTableMap[tableName]]: a key that is absent yields the nil slice. *)
Definition foreignTables (foreignTableMap : gmap string (list string))
    (tableName : string) : list string :=
  default [] (foreignTableMap !! tableName).

(** The loop over [fTableNames]: [noDeps] stays [true] unless some referenced
    table is not yet a key of [addedTables], in which case the loop breaks. *)
Fixpoint noDeps (added : gmap string bool) (fTableNames : list string) : bool :=
  match fTableNames with
  | [] => true
  | fTableName :: rest =>
      match added !! fTableName with
      | Some _ => noDeps added rest
      | None => false
      end
  end.

(** [tables[i] = tables[len(tables)-1]; tables = tables[:len(tables)-1]]. *)
Definition removeAt (i : nat) (ts : list string) : list string :=
  match last ts with
  | Some l => take (length ts - 1) (<[i := l]> ts)
  | None => ts
  end.

(** The inner loop [for i := 0; i < len(tables); { ... }], from index [i].
    [tables !! i = None] is the loop condition [i < len(tables)] failing. *)
Fixpoint pass (fuel : nat) (foreignTableMap : gmap string (list string))
    (i : nat) (st : state) : option state :=
  match tables st !! i with
  | None => Some st
  | Some tableName =>
      match fuel with
      | 0 => None
      | S fuel' =>
          if noDeps (addedTables st) (foreignTables foreignTableMap tableName)
          then pass fuel' foreignTableMap i
                 {| tables := removeAt i (tables st);
                    addedTables := <[tableName := true]> (addedTables st);
                    dependencyOrderedTables :=
                      dependencyOrderedTables st ++ [tableName] |}
          else pass fuel' foreignTableMap (i + 1) st
      end
  end.

(** The outer loop [for len(tables) > 0 { ... }] with its [break] when a
    pass removed nothing. *)
Fixpoint order (fuel : nat) (foreignTableMap : gmap string (list string))
    (st : state) : option state :=
  match tables st with
  | [] => Some st
  | _ :: _ =>
      match fuel with
      | 0 => None
      | S fuel' =>
          let lastTableLen := length (tables st) in
          match pass lastTableLen foreignTableMap 0 st with
          | None => None
          | Some st' =>
              if lastTableLen =? length (tables st') then Some st'
              else order fuel' foreignTableMap st'
          end
      end
  end.

(** The ordering part of [TableNames], lines 84 to 115, run for at most
    [fuel] outer passes; the leftover tables are appended at the end. *)
Definition TableNames_fuel (fuel : nat) (ts : list string)
    (foreignTableMap : gmap string (list string)) : option (list string) :=
  match order fuel foreignTableMap
          {| tables := ts; addedTables := ∅; dependencyOrderedTables := [] |} with
  | Some st => Some (dependencyOrderedTables st ++ tables st)
  | None => None
  end.

(** The first loops of [TableNames]: the qualified names [schema.name] of
    the rows of [sys.objects], and the map from each of them to the tables
    its foreign keys reference, as [getForeignDefs] reports them. *)
Definition scanTables (rows : list (string * string)) : list string :=
  foldl (fun acc row => acc ++ [fst row +:+ "." +:+ snd row]) [] rows.

Definition buildForeignTableMap (getForeignDefs : string -> list string)
    (ts : list string) : gmap string (list string) :=
  foldl (fun m tableName => <[tableName := getForeignDefs tableName]> m) ∅ ts.

Definition TableNames (rows : list (string * string))
    (getForeignDefs : string -> list string) : option (list string) :=
  let ts := scanTables rows in
  TableNames_fuel (length ts) ts (buildForeignTableMap getForeignDefs ts).

(** [a] references [b] through a foreign key. *)
Definition references (foreignTableMap : gmap string (list string))
    (a b : string) : Prop :=
  b ∈ foreignTables foreignTableMap a.

(** A table lies on a foreign-key cycle when it reaches itself through one
    or more references (a self-reference is a cycle of length one). *)
Definition cyclic (foreignTableMap : gmap string (list string))
    (t : string) : Prop :=
  tc (references foreignTableMap) t t.

(** Every element of the list has all the tables it references strictly
    before it. *)
Definition resolved_in_order (foreignTableMap : gmap string (list string))
    (out : list string) : Prop :=
  forall i t, out !! i = Some t ->
    forall f, references foreignTableMap t f -> f ∈ take i out.

End TableOrder.

(** ** Predicates on byte strings, used to state what a text holds *)

Module Text.

(** Whether the byte [c] occurs in [s]. *)
Fixpoint hasByte (c : ascii) (s : string) : bool :=
  match s with
  | EmptyString => false
  | String c' rest => Ascii.eqb c' c || hasByte c rest
  end.

(** [sub] occurs in [s]. *)
Definition occursIn (sub s : string) : Prop :=
  exists before after, s = before +:+ sub +:+ after.

(** [s] ends with [suffix]. *)
Definition endsWith (s suffix : string) : Prop :=
  exists before, s = before +:+ suffix.

End Text.

(** ** Go library functions the adapter calls

    These are not code of the repository; each is written out from the
    behaviour the Go documentation gives it, on byte strings. *)

Module Go.

(** The one-byte string ["\n"]. *)
Definition nl : string := String "010"%char "".

(** [strings.Join(elems, sep)]. *)
Definition Join (elems : list string) (sep : string) : string :=
  String.concat sep elems.

(** [strings.HasSuffix(s, suffix)]. *)
Fixpoint HasSuffix (s suffix : string) : bool :=
  if String.eqb s suffix then true
  else match s with
       | EmptyString => false
       | String _ rest => HasSuffix rest suffix
       end.

(** [strings.TrimSuffix(s, suffix)]: [s] without the trailing [suffix], or
    [s] itself when it does not end with it. *)
Fixpoint TrimSuffix (s suffix : string) : string :=
  if String.eqb s suffix then EmptyString
  else match s with
       | EmptyString => EmptyString
       | String c rest => String c (TrimSuffix rest suffix)
       end.

(** The first occurrence of the byte [sep] cuts [s] in two. *)
Fixpoint cut (s : string) (sep : ascii) : option (string * string) :=
  match s with
  | EmptyString => None
  | String c rest =>
      if Ascii.eqb c sep then Some (EmptyString, rest)
      else match cut rest sep with
           | Some (before, after) => Some (String c before, after)
           | None => None
           end
  end.

(** [strings.SplitN(s, sep, 2)] for a separator of one byte: at most two
    substrings, the second one being the unsplit remainder. *)
Definition SplitN_2 (s : string) (sep : ascii) : list string :=
  match cut s sep with
  | Some (before, after) => [before; after]
  | None => [s]
  end.

(** [strings.ReplaceAll(s, old, "")] for an [old] of one byte. *)
Fixpoint RemoveAll (s : string) (old : ascii) : string :=
  match s with
  | EmptyString => EmptyString
  | String c rest =>
      if Ascii.eqb c old then RemoveAll rest old
      else String c (RemoveAll rest old)
  end.

(** The value of a decimal digit. *)
Definition digit (c : ascii) : option Z :=
  let n := Z.of_N (N_of_ascii c) in
  if (48 <=? n)%Z && (n <=? 57)%Z then Some (n - 48)%Z else None.

Fixpoint parseDigits (acc : Z) (s : string) : option Z :=
  match s with
  | EmptyString => Some acc
  | String c rest =>
      match digit c with
      | Some d => parseDigits (acc * 10 + d)%Z rest
      | None => None
      end
  end.

(** The range of [int] on a 64-bit platform. *)
Definition minInt : Z := (- 2 ^ 63)%Z.
Definition maxInt : Z := (2 ^ 63 - 1)%Z.

(** [strconv.Atoi(s)]: an optional sign, then one or more decimal digits,
    the value within the range of [int]; [None] is the error. *)
Definition Atoi (s : string) : option Z :=
  let '(neg, digits) :=
    match s with
    | String "-"%char rest => (true, rest)
    | String "+"%char rest => (false, rest)
    | _ => (false, s)
    end in
  match digits with
  | EmptyString => None
  | _ =>
      match parseDigits 0 digits with
      | Some n =>
          let v := if neg then (- n)%Z else n in
          if (minInt <=? v)%Z && (v <=? maxInt)%Z then Some v else None
      | None => None
      end
  end.

(** [strconv.Itoa(n)]: the decimal text of [n]. *)
Definition Itoa (n : Z) : string := pretty n.

(** [strings.ToLower] on ASCII text: the letters [A] to [Z] are lowered,
    every other byte is kept. *)
Definition lowerByte (c : ascii) : ascii :=
  let n := N_of_ascii c in
  if (65 <=? n)%N && (n <=? 90)%N then ascii_of_N (n + 32) else c.

Fixpoint ToLowerASCII (s : string) : string :=
  match s with
  | EmptyString => EmptyString
  | String c rest => String (lowerByte c) (ToLowerASCII rest)
  end.

(** The ASCII white space [strings.TrimSpace] removes: tab, line feed,
    vertical tab, form feed, carriage return and space. *)
Definition isSpaceByte (c : ascii) : bool :=
  let n := N_of_ascii c in
  ((9 <=? n)%N && (n <=? 13)%N) || (n =? 32)%N.

Fixpoint trimLeft (s : string) : string :=
  match s with
  | EmptyString => EmptyString
  | String c rest => if isSpaceByte c then trimLeft rest else s
  end.

Fixpoint trimRight (s : string) : string :=
  match s with
  | EmptyString => EmptyString
  | String c rest =>
      match trimRight rest with
      | EmptyString => if isSpaceByte c then EmptyString else String c EmptyString
      | r => String c r
      end
  end.

(** [strings.TrimSpace] on ASCII text. *)
Definition TrimSpaceASCII (s : string) : string := trimRight (trimLeft s).

(** [sort.Slice(x, less)]: the elements in an order in which no element is
    [less] than one before it. *)
Definition notAfter {A : Type} (less : A -> A -> bool) (a b : A) : Prop :=
  less b a = false.

#[export] Instance notAfter_dec {A : Type} (less : A -> A -> bool) :
  RelDecision (notAfter less).
Proof. intros a b. unfold notAfter. exact (decide (less b a = false)). Defined.

Definition sortSlice {A : Type} (less : A -> A -> bool) (x : list A) : list A :=
  merge_sort (notAfter less) x.

End Go.

(** ** The SQL Server adapter: dumping a table *)

Module Mssql.
Import Go.

Definition indent : string := "    ".

Record identity := {
  SeedValue : string;
  IncrementValue : string;
  NotForReplication : bool
}.

Record check := {
  check_Name : string;
  check_Definition : string;
  check_NotForReplication : bool
}.

Record column := {
  Name : string;
  dataType : string;
  MaxLength : string;
  Scale : string;
  Nullable : bool;
  Identity : option identity;
  DefaultName : string;
  DefaultVal : string;
  Check_ : option check
}.

Record indexOption := {
  option_name : string;
  option_value : string
}.

Record indexDef := {
  name : string;
  columns : list string;
  primary : bool;
  unique : bool;
  indexType : string;
  included : list string;
  options : list indexOption
}.

(** [column.getLength]: the text of the length and whether there is one. *)
Definition getLength (c : column) : string * bool :=
  if String.eqb (dataType c) "char" || String.eqb (dataType c) "varchar"
     || String.eqb (dataType c) "binary" || String.eqb (dataType c) "varbinary"
  then
    if String.eqb (MaxLength c) "-1" then ("max", true)
    else (MaxLength c, true)
  else if String.eqb (dataType c) "nvarchar" || String.eqb (dataType c) "nchar"
  then
    if String.eqb (MaxLength c) "-1" then ("max", true)
    else match Atoi (MaxLength c) with
         | None => ("", false)
         | Some maxLength => (Itoa (maxLength ÷ 2), true)
         end
  else if String.eqb (dataType c) "datetimeoffset"
  then
    if String.eqb (Scale c) "7" then ("", false)
    else (Scale c, true)
  else ("", false).

(** [splitTableName]: the schema defaults to [dbo]. *)
Definition splitTableName (table : string) : string * string :=
  let schema := "dbo" in
  let schemaTable := SplitN_2 table "."%char in
  match schemaTable with
  | [schema'; table'] => (schema', table')
  | _ => (schema, table)
  end.

Section Keywords.

(** [strings.ToLower], and the keys of [sqlparser.Keywords()] in the order
    the [range] of [init] meets them; the parser package is not part of
    these sources. *)
Variable ToLower : string -> string.
Variable keywords : list string.

(** The map [init] builds. *)
Definition reservedKeywords : gmap string bool :=
  foldl (fun m keyword => <[ToLower keyword := true]> m) ∅ keywords.

Definition getSafeColumnName (name : string) : string :=
  match reservedKeywords !! ToLower name with
  | Some _ => "[" +:+ name +:+ "]"
  | None => name
  end.

(** The body of the loop over the columns; [qb] is the text the
    [strings.Builder] holds so far. *)
Definition writeColumn (qb : string) (i : nat) (col : column) : string :=
  let qb := if 0 <? i then qb +:+ "," else qb in
  let qb := qb +:+ (nl +:+ indent) in
  let col_name := getSafeColumnName (Name col) in
  let qb := qb +:+ (col_name +:+ " " +:+ dataType col) in
  let qb := match getLength col with
            | (length, true) => qb +:+ ("(" +:+ length +:+ ")")
            | (_, false) => qb
            end in
  let qb := if Nullable col then qb else qb +:+ " NOT NULL" in
  let qb := if String.eqb (DefaultName col) "" then qb
            else qb +:+ (" CONSTRAINT " +:+ DefaultName col +:+ " DEFAULT "
                         +:+ DefaultVal col) in
  let qb := match Identity col with
            | Some idn =>
                let qb := qb +:+ (" IDENTITY(" +:+ SeedValue idn +:+ ","
                                  +:+ IncrementValue idn +:+ ")") in
                if NotForReplication idn then qb +:+ " NOT FOR REPLICATION" else qb
            | None => qb
            end in
  match Check_ col with
  | Some chk =>
      let qb := qb +:+ (" CONSTRAINT [" +:+ check_Name chk +:+ "] CHECK") in
      let qb := if check_NotForReplication chk
                then qb +:+ " NOT FOR REPLICATION" else qb in
      qb +:+ (" " +:+ check_Definition chk)
  | None => qb
  end.

Fixpoint writeColumns (qb : string) (i : nat) (cols : list column) : string :=
  match cols with
  | [] => qb
  | col :: rest => writeColumns (writeColumn qb i col) (S i) rest
  end.

(** [" WITH ( a = x, b = y )"], written when there is an option at all. *)
Fixpoint writeOptionItems (qb : string) (i : nat) (opts : list indexOption)
    : string :=
  match opts with
  | [] => qb
  | option :: rest =>
      let qb := if 0 <? i then qb +:+ "," else qb in
      let qb := qb +:+ (" " +:+ (option_name option +:+ " = " +:+ option_value option)) in
      writeOptionItems qb (S i) rest
  end.

Definition writeOptions (qb : string) (opts : list indexOption) : string :=
  if 0 <? length opts
  then writeOptionItems (qb +:+ " WITH (") 0 opts +:+ " )"
  else qb.

Definition writeIndexType (qb : string) (d : indexDef) : string :=
  if String.eqb (indexType d) "CLUSTERED" || String.eqb (indexType d) "NONCLUSTERED"
  then qb +:+ (" " +:+ indexType d)
  else qb.

(** The body of the first loop over the index definitions. *)
Definition writePrimaryKey (qb : string) (d : indexDef) : string :=
  if negb (primary d) then qb
  else
    let qb := qb +:+ ("," +:+ nl +:+ indent) in
    let qb := qb +:+ ("CONSTRAINT [" +:+ name d +:+ "] PRIMARY KEY") in
    let qb := writeIndexType qb d in
    let qb := qb +:+ (" (" +:+ Join (columns d) ", " +:+ ")") in
    writeOptions qb (options d).

Definition writeForeignDef (qb : string) (v : string) : string :=
  (qb +:+ ("," +:+ nl +:+ indent)) +:+ v.

(** The body of the second loop over the index definitions. *)
Definition writeIndex (qb : string) (d : indexDef) : string :=
  if primary d then qb
  else if 0 <? length (included d) then qb
  else
    let qb := qb +:+ ("," +:+ nl +:+ indent) in
    let qb := qb +:+ ("INDEX [" +:+ name d +:+ "]") in
    let qb := if unique d then qb +:+ " UNIQUE" else qb in
    let qb := writeIndexType qb d in
    let qb := qb +:+ (" (" +:+ Join (columns d) ", " +:+ ")") in
    writeOptions qb (options d).

(** The body of the third loop, after the closing of [CREATE TABLE]. *)
Definition writeIncludeIndex (table : string) (qb : string) (d : indexDef)
    : string :=
  if length (included d) =? 0 then qb
  else if primary d then qb
  else
    let qb := qb +:+ (nl +:+ "CREATE") in
    let qb := if unique d then qb +:+ " UNIQUE" else qb in
    let qb := writeIndexType qb d in
    let qb := qb +:+ (" INDEX [" +:+ name d +:+ "] ON " +:+ table +:+ " ("
                      +:+ Join (columns d) ", " +:+ ")") in
    let qb := if 0 <? length (included d)
              then qb +:+ (" INCLUDE (" +:+ Join (included d) ", " +:+ ")")
              else qb in
    let qb := writeOptions qb (options d) in
    qb +:+ ";".

Definition buildDumpTableDDL (table : string) (cols : list column)
    (indexDefs : list indexDef) (foreignDefs : list string) : string :=
  let qb := "CREATE TABLE " +:+ table +:+ " (" in
  let qb := writeColumns qb 0 cols in
  let qb := foldl writePrimaryKey qb indexDefs in
  let qb := foldl writeForeignDef qb foreignDefs in
  let qb := foldl writeIndex qb indexDefs in
  let qb := qb +:+ (nl +:+ ");" +:+ nl) in
  let qb := foldl (writeIncludeIndex table) qb indexDefs in
  TrimSuffix qb nl.

(** [DumpTableDDL]: the three queries, each of which may fail, then the
    text built from their results. *)
Definition DumpTableDDL
    (getColumns : string -> option (list column))
    (getIndexDefs : string -> option (list indexDef))
    (getForeignDefs : string -> option (list string * list string))
    (table : string) : option string :=
  match getColumns table with
  | None => None
  | Some cols =>
      match getIndexDefs table with
      | None => None
      | Some indexDefs =>
          match getForeignDefs table with
          | None => None
          | Some (foreignDefs, _) =>
              Some (buildDumpTableDDL table cols indexDefs foreignDefs)
          end
      end
  end.

End Keywords.

(** C2 as the claim has it: the whole text is one [CREATE TABLE] statement
    that holds every index and every foreign key. *)
Definition all_inline (table : string) (indexDefs : list indexDef)
    (foreignDefs : list string) (ddl : string) : Prop :=
  exists body,
    ddl = "CREATE TABLE " +:+ table +:+ " (" +:+ body +:+ nl +:+ ");"
    /\ (forall d, d ∈ indexDefs -> Text.occursIn ("[" +:+ name d +:+ "]") body)
    /\ (forall v, v ∈ foreignDefs -> Text.occursIn v body).

(** *** The index listing behind [DumpTableDDL] *)

(** A row of the query over [sys.indexes] and one of the query over
    [sys.index_columns], as [rows.Scan] fills the variables. *)
Record indexRow := {
  indexName : string;
  isPrimary : bool;
  isUnique : bool;
  typeDesc : string;
  padIndex : bool;
  fillfactor : string;
  ignoreDupKey : bool;
  noRecompute : bool;
  incremental : bool;
  rowLocks : bool;
  pageLocks : bool
}.

Record indexColumnRow := {
  column_indexName : string;
  columnName : string;
  isDescending : bool;
  isIncluded : bool
}.

Definition boolToOnOff (b : bool) : string :=
  if b then "ON" else "OFF".

(** The body of the first [rows.Next()] loop of [getIndexDefs]. *)
Definition scanIndexRow (indexDefMap : gmap string indexDef) (r : indexRow)
    : gmap string indexDef :=
  let opts :=
    [ {| option_name := "PAD_INDEX"; option_value := boolToOnOff (padIndex r) |};
      {| option_name := "IGNORE_DUP_KEY"; option_value := boolToOnOff (ignoreDupKey r) |};
      {| option_name := "STATISTICS_NORECOMPUTE";
         option_value := boolToOnOff (noRecompute r) |};
      {| option_name := "STATISTICS_INCREMENTAL";
         option_value := boolToOnOff (incremental r) |};
      {| option_name := "ALLOW_ROW_LOCKS"; option_value := boolToOnOff (rowLocks r) |};
      {| option_name := "ALLOW_PAGE_LOCKS";
         option_value := boolToOnOff (pageLocks r) |} ] in
  let opts :=
    if negb (String.eqb (fillfactor r) "0")
    then opts ++ [ {| option_name := "FILLFACTOR"; option_value := fillfactor r |} ]
    else opts in
  let definition :=
    {| name := indexName r; columns := []; primary := isPrimary r;
       unique := isUnique r; indexType := typeDesc r; included := [];
       options := opts |} in
  <[indexName r := definition]> indexDefMap.

(** The body of the second loop.  The map holds pointers, so the append goes
    to the definition the map holds; an index name the map does not have is
    a nil pointer, and the run ends there ([None]). *)
Definition scanIndexColumnRow (indexDefMap : gmap string indexDef)
    (r : indexColumnRow) : option (gmap string indexDef) :=
  let columnDefinition := "[" +:+ columnName r +:+ "]" in
  match indexDefMap !! column_indexName r with
  | None => None
  | Some d =>
      if isIncluded r then
        Some (<[column_indexName r :=
                 {| name := name d; columns := columns d; primary := primary d;
                    unique := unique d; indexType := indexType d;
                    included := included d ++ [columnDefinition];
                    options := options d |}]> indexDefMap)
      else
        let columnDefinition :=
          if isDescending r then columnDefinition +:+ " DESC"
          else columnDefinition in
        Some (<[column_indexName r :=
                 {| name := name d; columns := columns d ++ [columnDefinition];
                    primary := primary d; unique := unique d;
                    indexType := indexType d; included := included d;
                    options := options d |}]> indexDefMap)
  end.

Fixpoint scanIndexColumnRows (indexDefMap : gmap string indexDef)
    (rows : list indexColumnRow) : option (gmap string indexDef) :=
  match rows with
  | [] => Some indexDefMap
  | r :: rest =>
      match scanIndexColumnRow indexDefMap r with
      | None => None
      | Some m => scanIndexColumnRows m rest
      end
  end.

(** [indexDefs[i].name < indexDefs[j].name], on the bytes. *)
Definition lessByName (a b : indexDef) : bool :=
  String.ltb (name a) (name b).

(** [getIndexDefs], from the rows of its two queries.  [rangeOrder] is the
    order in which [range indexDefMap] meets the definitions, which Go
    leaves open. *)
Definition getIndexDefs (rangeOrder : gmap string indexDef -> list indexDef)
    (indexRows : list indexRow) (columnRows : list indexColumnRow)
    : option (list indexDef) :=
  let indexDefMap := foldl scanIndexRow ∅ indexRows in
  match scanIndexColumnRows indexDefMap columnRows with
  | None => None
  | Some indexDefMap =>
      let indexDefs := foldl (fun acc definition => acc ++ [definition]) []
                             (rangeOrder indexDefMap) in
      Some (sortSlice lessByName indexDefs)
  end.

(** An order of iteration over a map meets every entry once. *)
Definition isRangeOrder (rangeOrder : gmap string indexDef -> list indexDef)
    : Prop :=
  forall m, rangeOrder m ≡ₚ (map_to_list m).*2.

(** *** Views and triggers *)

(** [suffixSemicolon.ReplaceAllString(s, "")], the expression being [;$]:
    a semicolon that ends the text is removed. *)
Fixpoint suffixSemicolon_remove (s : string) : string :=
  match s with
  | EmptyString => EmptyString
  | String c rest =>
      match rest with
      | EmptyString => if Ascii.eqb c ";"%char then EmptyString else s
      | _ => String c (suffixSemicolon_remove rest)
      end
  end.

(** [spaces.ReplaceAllString(s, " ")], the expression being [[ ]+]: every
    maximal run of spaces becomes one space. *)
Fixpoint spaces_collapse (s : string) : string :=
  match s with
  | EmptyString => EmptyString
  | String c rest =>
      if Ascii.eqb c " "%char then
        match rest with
        | String c' _ =>
            if Ascii.eqb c' " "%char then spaces_collapse rest
            else String c (spaces_collapse rest)
        | EmptyString => String c EmptyString
        end
      else String c (spaces_collapse rest)
  end.

(** What the loop of [Views] does to the definition of one row. *)
Definition viewDDL (TrimSpace : string -> string) (definition : string) : string :=
  let definition := TrimSpace definition in
  let definition := RemoveAll definition "010"%char in
  let definition := suffixSemicolon_remove definition in
  let definition := spaces_collapse definition in
  definition +:+ ";".

(** [Views], from the rows [(name, definition)] of its query. *)
Definition Views (TrimSpace : string -> string) (rows : list (string * string))
    : list string :=
  foldl (fun ddls row => ddls ++ [viewDDL TrimSpace (snd row)]) [] rows.

(** [Triggers], from the rows of its query. *)
Definition Triggers (rows : list string) : list string :=
  foldl (fun triggers definition => triggers ++ [definition]) [] rows.

End Mssql.

(** ** mysqldef: the options *)

Module Mysqldef.

(** The struct that go-flags fills. *)
Record opts := {
  User : string;
  Password : string;
  Host : string;
  Port : Z;
  Socket : string;
  Prompt : bool;
  EnableCleartextPlugin : bool;
  File : list string;
  DryRun : bool;
  Export_ : bool;
  SkipDrop : bool;
  Help : bool;
  Version : bool
}.

(** [adapter.Config] and [sqldef.Options], with the fields [parseOptions]
    sets. *)
Record Config := {
  config_DbName : string;
  config_User : string;
  config_Password : string;
  config_Host : string;
  config_Port : Z;
  config_Socket : string;
  config_MySQLEnableCleartextPlugin : bool
}.

Record Options := {
  options_DesiredFile : string;
  options_CurrentFile : list string;
  options_DryRun : bool;
  options_Export : bool;
  options_SkipDrop : bool
}.

(** How a call ends: it returns, or the process exits with a code
    ([os.Exit(code)]; [log.Fatal] is [os.Exit(1)]). *)
Inductive outcome (A : Type) : Type :=
| Return (a : A)
| Exit (code : Z).
Arguments Return {A} a.
Arguments Exit {A} code.

(** [int(opts.Port)]: a [uint] of 64 bits read as an [int] of 64 bits. *)
Definition uint_to_int (p : Z) : Z :=
  if (p <? 2 ^ 63)%Z then p else (p - 2 ^ 64)%Z.

Section ParseOptions.

(** What [parseOptions] takes from outside the repository's sources:
    go-flags' [parser.ParseArgs] (the filled struct and the positional
    arguments, or an error), [sqldef.ParseFiles], the environment, and
    [term.ReadPassword] on the terminal ([None] is an error). *)
Variable ParseArgs : list string -> option (opts * list string).
Variable ParseFiles : list string -> string * list string.
Variable LookupEnv : string -> option string.
Variable ReadPassword : option string.

Definition parseOptions (args : list string) : outcome (Config * Options) :=
  match ParseArgs args with
  | None => Exit 1
  | Some (o, args) =>
      if Help o then Exit 0
      else if Version o then Exit 0
      else
        let '(desiredFile, currentFile) := ParseFiles (File o) in
        let options :=
          {| options_DesiredFile := desiredFile;
             options_CurrentFile := currentFile;
             options_DryRun := DryRun o;
             options_Export := Export_ o;
             options_SkipDrop := SkipDrop o |} in
        let database : outcome string :=
          if length currentFile =? 0 then
            match args with
            | [] => Exit 1
            | [database] => Return database
            | _ :: _ :: _ => Exit 1
            end
          else Return "" in
        match database with
        | Exit code => Exit code
        | Return database =>
            let password :=
              match LookupEnv "MYSQL_PWD" with
              | Some password => password
              | None => Password o
              end in
            let password : outcome string :=
              if Prompt o then
                match ReadPassword with
                | None => Exit 1
                | Some pass => Return pass
                end
              else Return password in
            match password with
            | Exit code => Exit code
            | Return password =>
                Return
                  ({| config_DbName := database;
                      config_User := User o;
                      config_Password := password;
                      config_Host := Host o;
                      config_Port := uint_to_int (Port o);
                      config_Socket := Socket o;
                      config_MySQLEnableCleartextPlugin := EnableCleartextPlugin o |},
                   options)
            end
        end
  end.

End ParseOptions.

(** Modelled from the spec: [sqldef.ParseFiles], which is not among these
    sources.  The [--file] flag is "repeatable with first entry desired,
    remainder current". *)
Definition ParseFiles_spec (files : list string) : string * list string :=
  match files with
  | [] => ("", [])
  | desired :: current => (desired, current)
  end.

End Mysqldef.


(** ** The SQL Server adapter: the foreign keys of a table *)

Module MssqlForeign.
Import Go Mssql.

(** [strings.Replace(s, old, new, -1)] for an [old] and a [new] of one
    byte each. *)
Fixpoint ReplaceByte (s : string) (old new : ascii) : string :=
  match s with
  | EmptyString => EmptyString
  | String c rest =>
      String (if Ascii.eqb c old then new else c) (ReplaceByte rest old new)
  end.

(** A row of the query of [getForeignDefs], as [rows.Scan] fills the
    variables. *)
Record foreignKeyRow := {
  constraintName : string;
  fk_columnName : string;
  foreignTableName : string;
  foreignColumnName : string;
  foreignUpdateRule : string;
  foreignDeleteRule : string;
  notForReplication : bool
}.

(** The body of the [rows.Next()] loop: [acc] holds the slices [defs] and
    [foreignTableNames]. *)
Definition scanForeignKeyRow (schema : string)
    (acc : list string * list string) (r : foreignKeyRow)
    : list string * list string :=
  let '(defs, foreignTableNames) := acc in
  let foreignTableName := schema +:+ "." +:+ foreignTableName r in
  let foreignUpdateRule := ReplaceByte (foreignUpdateRule r) "_" " " in
  let foreignDeleteRule := ReplaceByte (foreignDeleteRule r) "_" " " in
  let def :=
    "CONSTRAINT [" +:+ constraintName r +:+ "] FOREIGN KEY ([" +:+ fk_columnName r
    +:+ "]) REFERENCES " +:+ foreignTableName +:+ " ([" +:+ foreignColumnName r
    +:+ "]) ON UPDATE " +:+ foreignUpdateRule +:+ " ON DELETE "
    +:+ foreignDeleteRule in
  let def := if notForReplication r then def +:+ " NOT FOR REPLICATION" else def in
  (defs ++ [def], foreignTableNames ++ [foreignTableName]).

(** [getForeignDefs], from the rows of its query: the definitions and the
    names of the referenced tables. *)
Definition getForeignDefs (table : string) (rows : list foreignKeyRow)
    : list string * list string :=
  let '(schema, table) := splitTableName table in
  foldl (scanForeignKeyRow schema) ([], []) rows.

End MssqlForeign.

(** ** mysqldef: the entry point *)

Module MysqldefMain.
Import Mysqldef.

(** What [main] ends in: [sqldef.Run] on the database of the current-schema
    file, [sqldef.Run] on a connection to MySQL, or an exit of the
    process. *)
Inductive run : Type :=
| RunFile (currentFile : list string) (options : Options)
| RunMysql (config : Config) (options : Options)
| ExitWith (code : Z).

(** [main]; [NewDatabase] tells whether [mysql.NewDatabase] succeeds. *)
Definition main
    (ParseArgs : list string -> option (opts * list string))
    (ParseFiles : list string -> string * list string)
    (LookupEnv : string -> option string)
    (ReadPassword : option string)
    (NewDatabase : Config -> bool)
    (args : list string) : run :=
  match parseOptions ParseArgs ParseFiles LookupEnv ReadPassword args with
  | Exit code => ExitWith code
  | Return (config, options) =>
      if 0 <? length (options_CurrentFile options)
      then RunFile (options_CurrentFile options) options
      else if NewDatabase config then RunMysql config options
           else ExitWith 1
  end.

End MysqldefMain.

(** * Properties *)

Module TableOrderFacts.
Import TableOrder.

Example order_ex1 :
  TableNames_fuel 3 ["a"; "c"; "b"] {[ "b" := ["a"] ]} = Some ["a"; "b"; "c"].
Proof. vm_compute. reflexivity. Qed.

Example order_ex2 :
  TableNames_fuel 3 ["b"; "a"; "c"] {[ "b" := ["a"]; "c" := ["c"] ]}
  = Some ["a"; "b"; "c"].
Proof. vm_compute. reflexivity. Qed.

Lemma removeAt_perm (ts : list string) i t :
  ts !! i = Some t -> t :: removeAt i ts ≡ₚ ts.
Proof.
  destruct ts as [|l ini _] using rev_ind; [done|].
  intros Hi. unfold removeAt. rewrite last_snoc, length_app. simpl.
  replace (length ini + 1 - 1) with (length ini) by lia.
  destruct (decide (i < length ini)) as [Hlt|Hge].
  - rewrite lookup_app_l in Hi by done.
    rewrite insert_app_l by done.
    rewrite take_app_length' by (by rewrite length_insert).
    apply list_elem_of_split_length in Hi as (a & b & -> & ->).
    rewrite insert_app_r_alt, Nat.sub_diag by lia. simpl.
    rewrite <- !app_assoc. simpl.
    rewrite (Permutation_app_comm b [l]). simpl.
    by rewrite <- !Permutation_middle.
  - assert (i = length ini) as ->.
    { apply lookup_lt_Some in Hi. rewrite length_app in Hi. simpl in Hi. lia. }
    rewrite list_lookup_middle in Hi by done. injection Hi as ->.
    rewrite insert_app_r_alt, Nat.sub_diag by lia. simpl.
    rewrite take_app_length. by rewrite Permutation_app_comm.
Qed.

Lemma removeAt_length (ts : list string) i t :
  ts !! i = Some t -> S (length (removeAt i ts)) = length ts.
Proof.
  intros Hi. apply removeAt_perm, Permutation_length in Hi. done.
Qed.

Lemma noDeps_true added fs :
  noDeps added fs = true <-> forall f, f ∈ fs -> is_Some (added !! f).
Proof.
  induction fs as [|f fs IH]; simpl.
  - split; [|done]. intros _ f Hf. by apply elem_of_nil in Hf.
  - destruct (added !! f) as [b|] eqn:Hf.
    + rewrite IH. split.
      * intros H g [->|Hg]%elem_of_cons; [by rewrite Hf | by apply H].
      * intros H g Hg. apply H. by right.
    + split; [done|]. intros H. destruct (H f) as [b Hb]; [by left | congruence].
Qed.

Section Invariant.
Variable foreignTableMap : gmap string (list string).
Variable tables0 : list string.

(** What the loops maintain: the keys of [addedTables] are the tables
    emitted so far, those are in dependency order, and no table has been
    lost or duplicated. *)
Definition inv (st : state) : Prop :=
  (forall k, is_Some (addedTables st !! k) <-> k ∈ dependencyOrderedTables st)
  /\ resolved_in_order foreignTableMap (dependencyOrderedTables st)
  /\ dependencyOrderedTables st ++ tables st ≡ₚ tables0.

Definition blocked (st : state) (t : string) : Prop :=
  noDeps (addedTables st) (foreignTables foreignTableMap t) = false.

Lemma inv_step st i t :
  inv st -> tables st !! i = Some t ->
  noDeps (addedTables st) (foreignTables foreignTableMap t) = true ->
  inv {| tables := removeAt i (tables st);
         addedTables := <[t := true]> (addedTables st);
         dependencyOrderedTables := dependencyOrderedTables st ++ [t] |}.
Proof.
  intros (Hkeys & Hres & Hperm) Hi Hnd. repeat split; simpl.
  - intros Hk. rewrite elem_of_app, list_elem_of_singleton.
    destruct (decide (t = k)) as [->|Hne]; [by right|].
    left. apply Hkeys. by rewrite lookup_insert_ne in Hk.
  - rewrite elem_of_app, list_elem_of_singleton. intros [Hk| ->].
    + destruct (decide (t = k)) as [->|Hne].
      * rewrite lookup_insert_eq. eauto.
      * rewrite lookup_insert_ne by done. by apply Hkeys.
    + rewrite lookup_insert_eq. eauto.
  - intros j u Hj f Hf.
    destruct (decide (j < length (dependencyOrderedTables st))) as [Hlt|Hge].
    + rewrite lookup_app_l in Hj by done.
      rewrite take_app_le by lia. by eapply Hres.
    + assert (j = length (dependencyOrderedTables st)) as ->.
      { apply lookup_lt_Some in Hj. rewrite length_app in Hj. simpl in Hj. lia. }
      rewrite list_lookup_middle in Hj by done. injection Hj as <-.
      rewrite take_app_length. apply Hkeys.
      by apply (proj1 (noDeps_true _ _) Hnd).
  - rewrite <- Hperm, <- app_assoc. simpl.
    apply Permutation_app_head. by apply removeAt_perm.
Qed.

(** One pass of the inner loop from index [i] ends; it either removes a
    table, or changes nothing and then every table from [i] on is
    blocked. *)
Lemma pass_spec fuel : forall i st,
  inv st -> length (tables st) - i <= fuel ->
  exists st', pass fuel foreignTableMap i st = Some st' /\ inv st' /\
    ((st' = st /\ forall j t, i <= j -> tables st !! j = Some t -> blocked st t)
     \/ length (tables st') < length (tables st)).
Proof.
  induction fuel as [|fuel IH]; intros i st Hinv Hfuel.
  - simpl. destruct (tables st !! i) as [t|] eqn:Hi.
    + apply lookup_lt_Some in Hi. lia.
    + exists st. repeat split; try apply Hinv. left. split; [done|].
      intros j t Hj Hjt. apply lookup_ge_None in Hi.
      apply lookup_lt_Some in Hjt. lia.
  - simpl. destruct (tables st !! i) as [t|] eqn:Hi.
    + destruct (noDeps _ _) eqn:Hnd.
      * pose proof (removeAt_length _ _ _ Hi) as Hlen.
        destruct (IH i _ (inv_step _ _ _ Hinv Hi Hnd)) as (st' & Hp & Hinv' & Hd).
        { simpl. lia. }
        exists st'. split; [done|]. split; [done|]. right.
        destruct Hd as [[-> _]|Hd]; simpl in *; lia.
      * destruct (IH (i + 1) st Hinv) as (st' & Hp & Hinv' & Hd); [lia|].
        exists st'. split; [done|]. split; [done|].
        destruct Hd as [[-> Hb]|Hd]; [left|by right]. split; [done|].
        intros j u Hj Hju. destruct (decide (j = i)) as [->|Hne].
        -- rewrite Hi in Hju. injection Hju as <-. done.
        -- apply (Hb j); [lia|done].
    + exists st. repeat split; try apply Hinv. left. split; [done|].
      intros j t Hj Hjt. apply lookup_ge_None in Hi.
      apply lookup_lt_Some in Hjt. lia.
Qed.

(** The outer loop ends within [length tables] passes, and every table it
    leaves behind is blocked. *)
Lemma order_spec fuel : forall st,
  inv st -> length (tables st) <= fuel ->
  exists st', order fuel foreignTableMap st = Some st' /\ inv st' /\
    forall t, t ∈ tables st' -> blocked st' t.
Proof.
  induction fuel as [|fuel IH]; intros st Hinv Hfuel.
  - destruct (tables st) as [|t ts] eqn:Hts; [|simpl in Hfuel; lia].
    exists st. simpl. rewrite Hts. repeat split; try apply Hinv.
    intros t Ht. by apply elem_of_nil in Ht.
  - simpl. destruct (tables st) as [|t0 ts] eqn:Hts.
    + exists st. rewrite Hts. repeat split; try apply Hinv.
      intros t Ht. by apply elem_of_nil in Ht.
    + rewrite <- Hts.
      destruct (pass_spec (length (tables st)) 0 st Hinv) as (st' & Hp & Hinv' & Hd);
        [lia|].
      rewrite Hp.
      destruct (Nat.eqb_spec (length (tables st)) (length (tables st')))
        as [He|Hne].
      * exists st'. split; [done|]. split; [done|].
        destruct Hd as [[-> Hb]|Hd]; [|lia].
        intros t [j Hj]%list_elem_of_lookup. apply (Hb j); [lia|done].
      * destruct Hd as [[-> _]|Hd]; [done|].
        apply IH; [done|]. rewrite Hts in Hd. simpl in *. lia.
Qed.

Lemma order_more_fuel fuel k : forall st st',
  order fuel foreignTableMap st = Some st' ->
  order (fuel + k) foreignTableMap st = Some st'.
Proof.
  induction fuel as [|fuel IH]; intros st st'; simpl.
  - destruct (tables st) eqn:Hts; [|done]. intros [= <-].
    destruct k; simpl; by rewrite Hts.
  - destruct (tables st) eqn:Hts; [done|]. rewrite <- Hts.
    destruct (pass _ _ _ _) as [st1|]; [|done].
    destruct (_ =? _); [done|]. apply IH.
Qed.
End Invariant.

Lemma inv_init foreignTableMap ts :
  inv foreignTableMap ts
    {| tables := ts; addedTables := ∅; dependencyOrderedTables := [] |}.
Proof.
  repeat split; simpl.
  - intros [b Hb]. by rewrite lookup_empty in Hb.
  - intros Hk. by apply elem_of_nil in Hk.
  - intros i t Hi. by rewrite lookup_nil in Hi.
  - done.
Qed.

(** In a list in dependency order, whatever a table reaches through
    references stands strictly before it. *)
Lemma resolved_reaches foreignTableMap out t u :
  resolved_in_order foreignTableMap out ->
  tc (references foreignTableMap) t u ->
  forall i, out !! i = Some t -> u ∈ take i out.
Proof.
  intros Hres. induction 1 as [t u Htu|t v u Htv _ IH]; intros i Hi.
  - by eapply Hres.
  - pose proof (Hres i t Hi v Htv) as (j & Hj & Hlt)%elem_of_take.
    specialize (IH j Hj). apply elem_of_take in IH as (m & Hm & Hmj).
    apply elem_of_take. exists m. split; [done|lia].
Qed.

Lemma cyclic_not_resolved foreignTableMap out t :
  resolved_in_order foreignTableMap out ->
  cyclic foreignTableMap t -> t ∉ out.
Proof.
  intros Hres Hcyc [i Hi]%list_elem_of_lookup.
  induction (lt_wf i) as [i _ IH].
  pose proof (resolved_reaches _ _ _ _ Hres Hcyc i Hi) as (j & Hj & Hlt)%elem_of_take.
  by apply (IH j).
Qed.

Lemma noDeps_false added fs :
  noDeps added fs = false -> exists f, f ∈ fs /\ added !! f = None.
Proof.
  induction fs as [|f fs IH]; simpl; [done|].
  destruct (added !! f) eqn:Hf.
  - intros (g & Hg & Hn)%IH. exists g. split; [by right|done].
  - intros _. exists f. split; [by left|done].
Qed.

Lemma order_from_start foreignTableMap ts :
  exists st,
    order (length ts) foreignTableMap
      {| tables := ts; addedTables := ∅; dependencyOrderedTables := [] |} = Some st
    /\ inv foreignTableMap ts st
    /\ forall t, t ∈ tables st -> blocked foreignTableMap st t.
Proof. apply order_spec; [apply inv_init|done]. Qed.

(** C1: the list [TableNames] returns is a dependency-ordered part followed
    by the leftover tables.  In the first part every table stands after all
    the tables its foreign keys reference; every leftover table still waits
    for a referenced table that the first part does not contain, so that a
    table whose references are all resolved is in the first part; and every
    table of the input that lies on a foreign-key cycle is among the
    leftover ones, at the end. *)
Theorem TableNames_dependency_order
    (ts : list string) (foreignTableMap : gmap string (list string)) :
  exists ordered rest,
    TableNames_fuel (length ts) ts foreignTableMap = Some (ordered ++ rest)
    /\ resolved_in_order foreignTableMap ordered
    /\ (forall t, t ∈ rest ->
          exists f, references foreignTableMap t f /\ f ∉ ordered)
    /\ (forall t, t ∈ ts ->
          (forall f, references foreignTableMap t f -> f ∈ ordered) ->
          t ∈ ordered /\ t ∉ rest)
    /\ (forall t, t ∈ ts -> cyclic foreignTableMap t -> t ∈ rest /\ t ∉ ordered).
Proof.
  destruct (order_from_start foreignTableMap ts)
    as (st & Hrun & (Hkeys & Hres & Hperm) & Hblocked).
  exists (dependencyOrderedTables st), (tables st).
  unfold TableNames_fuel. rewrite Hrun. split; [done|]. split; [done|].
  assert (forall t, t ∈ tables st ->
            exists f, references foreignTableMap t f
                      /\ f ∉ dependencyOrderedTables st) as Hwait.
  { intros t Ht. destruct (noDeps_false _ _ (Hblocked t Ht)) as (f & Hf & Hnone).
    exists f. split; [done|]. intros Hin%Hkeys. rewrite Hnone in Hin.
    by destruct Hin. }
  split; [done|]. split.
  - intros t Ht Hall.
    assert (t ∉ tables st) as Hnot.
    { intros (f & Hf & Hnf)%Hwait. by apply Hnf, Hall. }
    split; [|done]. rewrite <- Hperm in Ht.
    apply elem_of_app in Ht as [Ht|Ht]; done.
  - intros t Ht Hcyc.
    pose proof (cyclic_not_resolved _ _ _ Hres Hcyc) as Hnot.
    split; [|done]. rewrite <- Hperm in Ht.
    apply elem_of_app in Ht as [Ht|Ht]; done.
Qed.

(** C8: whatever the table list and the dependency map, cycles and
    self-references included, the ordering loop of [TableNames] ends within
    [length ts] outer passes (more fuel changes nothing), and the list it
    returns is a permutation of the input: no table lost, none duplicated. *)
Theorem TableNames_terminates_permutation
    (ts : list string) (foreignTableMap : gmap string (list string)) :
  exists out,
    (forall k, TableNames_fuel (length ts + k) ts foreignTableMap = Some out)
    /\ out ≡ₚ ts.
Proof.
  destruct (order_from_start foreignTableMap ts)
    as (st & Hrun & (_ & _ & Hperm) & _).
  exists (dependencyOrderedTables st ++ tables st). split; [|done].
  intros k. unfold TableNames_fuel.
  by rewrite (order_more_fuel _ _ k _ _ Hrun).
Qed.

End TableOrderFacts.

(** ** Byte strings *)

Module StringFacts.
Export Text.

Lemma app_nil_s (b : string) : "" +:+ b = b.
Proof. reflexivity. Qed.

Lemma app_cons_s x (a b : string) : String x a +:+ b = String x (a +:+ b).
Proof. reflexivity. Qed.

Lemma app_assoc_s (a b c : string) : (a +:+ b) +:+ c = a +:+ (b +:+ c).
Proof. induction a as [|x a IH]; [done|]. rewrite !app_cons_s. by f_equal. Qed.

Lemma app_empty_r (a : string) : a +:+ "" = a.
Proof. induction a as [|x a IH]; [done|]. rewrite app_cons_s. by f_equal. Qed.

Lemma length_app_s (a b : string) :
  String.length (a +:+ b) = String.length a + String.length b.
Proof. induction a as [|x a IH]; [done|]. rewrite app_cons_s. simpl. by rewrite IH. Qed.

Lemma hasByte_app c a b : hasByte c (a +:+ b) = hasByte c a || hasByte c b.
Proof.
  induction a as [|x a IH]; [done|]. rewrite app_cons_s. simpl.
  rewrite IH. by rewrite orb_assoc.
Qed.

Lemma occursIn_refl s : occursIn s s.
Proof. exists "", "". by rewrite app_nil_s, app_empty_r. Qed.

Lemma occursIn_app_l sub a b : occursIn sub a -> occursIn sub (a +:+ b).
Proof.
  intros (x & y & ->). exists x, (y +:+ b). by rewrite !app_assoc_s.
Qed.

Lemma occursIn_app_r sub a b : occursIn sub b -> occursIn sub (a +:+ b).
Proof.
  intros (x & y & ->). exists (a +:+ x), y. by rewrite !app_assoc_s.
Qed.

Lemma app_eq_empty (a b : string) : a +:+ b = "" <-> a = "" /\ b = "".
Proof.
  split; [|by intros [-> ->]]. destruct a; [done|]. by rewrite app_cons_s.
Qed.

End StringFacts.

(** ** The Go library functions *)

Module GoFacts.
Import Go StringFacts.

Lemma cut_none s sep : hasByte sep s = false -> cut s sep = None.
Proof.
  induction s as [|c s IH]; simpl; [done|].
  intros [Hc Hs]%orb_false_iff. rewrite Hc. by rewrite IH.
Qed.

Lemma cut_first before after sep :
  hasByte sep before = false ->
  cut (before +:+ String sep after) sep = Some (before, after).
Proof.
  induction before as [|c s IH].
  - intros _. rewrite app_nil_s. simpl. by rewrite Ascii.eqb_refl.
  - rewrite app_cons_s. simpl. intros [Hc Hs]%orb_false_iff.
    rewrite Hc. by rewrite IH.
Qed.

Lemma eqb_app_longer (a suffix : string) c :
  String.eqb (String c (a +:+ suffix)) suffix = false.
Proof.
  apply String.eqb_neq. intros H. apply (f_equal String.length) in H.
  simpl in H. rewrite length_app_s in H. lia.
Qed.

Lemma TrimSuffix_cons c (s suffix : string) :
  TrimSuffix (String c s) suffix
  = if String.eqb (String c s) suffix then EmptyString
    else String c (TrimSuffix s suffix).
Proof. reflexivity. Qed.

Lemma HasSuffix_cons c (s suffix : string) :
  HasSuffix (String c s) suffix
  = if String.eqb (String c s) suffix then true else HasSuffix s suffix.
Proof. reflexivity. Qed.

Lemma TrimSuffix_app (a suffix : string) : TrimSuffix (a +:+ suffix) suffix = a.
Proof.
  induction a as [|c a IH].
  - rewrite app_nil_s. destruct suffix as [|c s]; [done|].
    by rewrite TrimSuffix_cons, String.eqb_refl.
  - by rewrite app_cons_s, TrimSuffix_cons, eqb_app_longer, IH.
Qed.

Lemma HasSuffix_app (a suffix : string) : HasSuffix (a +:+ suffix) suffix = true.
Proof.
  induction a as [|c a IH].
  - rewrite app_nil_s. destruct suffix as [|c s]; [done|].
    by rewrite HasSuffix_cons, String.eqb_refl.
  - by rewrite app_cons_s, HasSuffix_cons, eqb_app_longer, IH.
Qed.

Lemma TrimSuffix_no_suffix (s suffix : string) :
  HasSuffix s suffix = false -> TrimSuffix s suffix = s.
Proof.
  induction s as [|c s IH].
  - intros _. simpl. by destruct suffix.
  - rewrite TrimSuffix_cons, HasSuffix_cons.
    destruct (String.eqb (String c s) suffix); [done|].
    intros H. by rewrite IH.
Qed.

Lemma HasSuffix_last a c d :
  HasSuffix (a +:+ String c "") (String d "") = Ascii.eqb c d.
Proof.
  induction a as [|x a IH].
  - rewrite app_nil_s, HasSuffix_cons. simpl.
    destruct (Ascii.eqb c d); [done|]. by destruct d.
  - rewrite app_cons_s, HasSuffix_cons, IH.
    replace (String.eqb (String x (a +:+ String c "")) (String d "")) with false;
      [done|].
    symmetry. apply String.eqb_neq. intros H.
    apply (f_equal String.length) in H. simpl in H.
    rewrite length_app_s in H. simpl in H. lia.
Qed.

End GoFacts.

(** ** Table names, lengths and keywords *)

Module MssqlFacts.
Import Go Mssql StringFacts GoFacts.

Example splitTableName_ex1 : splitTableName "users" = ("dbo", "users").
Proof. reflexivity. Qed.

Example splitTableName_ex2 : splitTableName "sales.orders" = ("sales", "orders").
Proof. reflexivity. Qed.

Example splitTableName_ex3 : splitTableName "a.b.c" = ("a", "b.c").
Proof. reflexivity. Qed.

(** C7: a table name without a ["."] is paired with the default schema
    [dbo]; any other name is cut at its first ["."] into the schema and the
    remainder. *)
Theorem splitTableName_spec :
  (forall table, hasByte "." table = false ->
     splitTableName table = ("dbo", table))
  /\ (forall schema rest, hasByte "." schema = false ->
        splitTableName (schema +:+ "." +:+ rest) = (schema, rest)).
Proof.
  split.
  - intros table H. unfold splitTableName, SplitN_2. by rewrite cut_none.
  - intros schema rest H. unfold splitTableName, SplitN_2.
    change ("." +:+ rest) with (String "."%char rest). by rewrite cut_first.
Qed.

Lemma splitTableName_spec_witness :
  splitTableName "users" = ("dbo", "users")
  /\ splitTableName ("sales" +:+ "." +:+ "orders.2024") = ("sales", "orders.2024").
Proof.
  split.
  - apply (proj1 splitTableName_spec "users"). reflexivity.
  - apply (proj2 splitTableName_spec "sales" "orders.2024"). reflexivity.
Defined.

Definition mkColumn (dataType MaxLength Scale : string) : column :=
  {| Name := "c"; dataType := dataType; MaxLength := MaxLength; Scale := Scale;
     Nullable := true; Identity := None; DefaultName := ""; DefaultVal := "";
     Check_ := None |}.

Example getLength_ex1 : getLength (mkColumn "nvarchar" "100" "0") = ("50", true).
Proof. reflexivity. Qed.

Example getLength_ex2 : getLength (mkColumn "varchar" "-1" "0") = ("max", true).
Proof. reflexivity. Qed.

Example getLength_ex3 : getLength (mkColumn "datetimeoffset" "10" "7") = ("", false).
Proof. reflexivity. Qed.

Example getLength_ex4 : getLength (mkColumn "datetimeoffset" "10" "3") = ("3", true).
Proof. reflexivity. Qed.

Example getLength_ex5 : getLength (mkColumn "int" "4" "0") = ("", false).
Proof. reflexivity. Qed.

Ltac case_eqb :=
  repeat match goal with
    | |- context [String.eqb ?a ?b] => destruct (String.eqb_spec a b)
    | H : context [String.eqb ?a ?b] |- _ => destruct (String.eqb_spec a b)
    end.

(** C9: a length is reported only for the seven listed types; for the six
    character and binary types a stored [max_length] of [-1] gives [max];
    for [nvarchar] and [nchar] any other stored length gives its half; and
    [datetimeoffset] with scale 7 gives no length. *)
Theorem getLength_spec :
  (forall c len, getLength c = (len, true) ->
     dataType c ∈ ["char"; "varchar"; "binary"; "varbinary"; "nvarchar"; "nchar";
                   "datetimeoffset"])
  /\ (forall c, dataType c ∈ ["char"; "varchar"; "binary"; "varbinary";
                              "nvarchar"; "nchar"] ->
        MaxLength c = "-1" -> getLength c = ("max", true))
  /\ (forall c maxLength, dataType c ∈ ["nvarchar"; "nchar"] ->
        MaxLength c <> "-1" -> Atoi (MaxLength c) = Some maxLength ->
        getLength c = (Itoa (maxLength ÷ 2), true))
  /\ (forall c, dataType c = "datetimeoffset" -> Scale c = "7" ->
        getLength c = ("", false)).
Proof.
  repeat split.
  - intros c len. unfold getLength. case_eqb; simpl; intros H;
      try discriminate H;
      match goal with E : dataType c = _ |- _ => rewrite E end;
      set_solver.
  - intros c Ht Hm. unfold getLength. rewrite Hm.
    rewrite !elem_of_cons in Ht.
    destruct Ht as [->|[->|[->|[->|[->|[->|Ht]]]]]]; [done..|].
    by apply elem_of_nil in Ht.
  - intros c n Ht Hm Ha. unfold getLength. rewrite Ha.
    destruct (String.eqb_spec (MaxLength c) "-1"); [done|].
    rewrite !elem_of_cons in Ht.
    destruct Ht as [->|[->|Ht]]; [done..|]. by apply elem_of_nil in Ht.
  - intros c Ht Hs. unfold getLength. by rewrite Ht, Hs.
Qed.

Lemma getLength_spec_witness :
  dataType (mkColumn "nchar" "20" "0")
    ∈ ["char"; "varchar"; "binary"; "varbinary"; "nvarchar"; "nchar"; "datetimeoffset"]
  /\ getLength (mkColumn "varbinary" "-1" "0") = ("max", true)
  /\ getLength (mkColumn "nchar" "20" "0") = (Itoa (20 ÷ 2), true)
  /\ getLength (mkColumn "datetimeoffset" "10" "7") = ("", false).
Proof.
  destruct getLength_spec as (H1 & H2 & H3 & H4).
  split; [|split; [|split]].
  - apply (H1 (mkColumn "nchar" "20" "0") "10"). reflexivity.
  - apply H2; [simpl; set_solver|reflexivity].
  - apply H3; [simpl; set_solver|discriminate|reflexivity].
  - apply H4; reflexivity.
Defined.

(** *** The text of a dumped table *)

(** A writer only appends to the builder: what it writes does not depend on
    what the builder holds. *)
Definition appends {A : Type} (write : string -> A -> string) : Prop :=
  forall qb x, write qb x = qb +:+ write "" x.

Ltac str_norm := rewrite ?app_assoc_s, ?app_nil_s, ?app_empty_r.

Lemma foldl_appends {A : Type} (write : string -> A -> string) :
  appends write ->
  forall xs qb, foldl write qb xs = qb +:+ foldl write "" xs.
Proof.
  intros Hw xs. induction xs as [|x xs IH]; intros qb; simpl.
  - by rewrite app_empty_r.
  - rewrite (IH (write qb x)), (IH (write "" x)), (Hw qb x). by str_norm.
Qed.

Lemma foldl_appends_snoc {A : Type} (write : string -> A -> string) xs x :
  foldl write "" (xs ++ [x]) = write (foldl write "" xs) x.
Proof. by rewrite foldl_app. Qed.

(** What a loop wrote for one of its elements occurs in what it wrote for
    all of them. *)
Lemma foldl_occurs {A : Type} (write : string -> A -> string) xs x :
  appends write -> x ∈ xs -> occursIn (write "" x) (foldl write "" xs).
Proof.
  intros Hw. induction xs as [|y xs IH]; [by intros ?%elem_of_nil|].
  simpl. rewrite (foldl_appends _ Hw). intros [->|Hx]%elem_of_cons.
  - apply occursIn_app_l, occursIn_refl.
  - by apply occursIn_app_r, IH.
Qed.

Lemma writeOptionItems_app opts : forall qb i,
  writeOptionItems qb i opts = qb +:+ writeOptionItems "" i opts.
Proof.
  induction opts as [|o opts IH]; intros qb i; simpl.
  - by rewrite app_empty_r.
  - rewrite (IH (_ +:+ _)). symmetry. rewrite (IH (_ +:+ _)).
    destruct (0 <? i); by str_norm.
Qed.

Lemma writeOptions_appends : appends writeOptions.
Proof.
  intros qb opts. unfold writeOptions. destruct (0 <? length opts).
  - rewrite (writeOptionItems_app _ (_ +:+ _)).
    rewrite (writeOptionItems_app _ ("" +:+ _)). by str_norm.
  - by rewrite app_empty_r.
Qed.

Lemma writeIndexType_appends : appends writeIndexType.
Proof.
  intros qb d. unfold writeIndexType. destruct (_ || _); by str_norm.
Qed.

Lemma writePrimaryKey_appends : appends writePrimaryKey.
Proof.
  intros qb d. unfold writePrimaryKey. destruct (primary d); simpl;
    [|by rewrite app_empty_r].
  rewrite (writeOptions_appends (_ +:+ _)).
  rewrite (writeIndexType_appends (_ +:+ _)). symmetry.
  rewrite (writeOptions_appends (_ +:+ _)).
  rewrite (writeIndexType_appends (_ +:+ _)). by str_norm.
Qed.

Lemma writeForeignDef_appends : appends writeForeignDef.
Proof. intros qb v. unfold writeForeignDef. by str_norm. Qed.

Lemma writeIndex_appends : appends writeIndex.
Proof.
  intros qb d. unfold writeIndex.
  destruct (primary d); [by rewrite app_empty_r|].
  destruct (0 <? length (included d)); [by rewrite app_empty_r|].
  rewrite (writeOptions_appends (_ +:+ _)).
  rewrite (writeIndexType_appends _). symmetry.
  rewrite (writeOptions_appends (_ +:+ _)).
  rewrite (writeIndexType_appends _).
  destruct (unique d); by str_norm.
Qed.

Lemma writeIncludeIndex_appends table : appends (writeIncludeIndex table).
Proof.
  intros qb d. unfold writeIncludeIndex.
  destruct (length (included d) =? 0); [by rewrite app_empty_r|].
  destruct (primary d); [by rewrite app_empty_r|].
  rewrite (writeOptions_appends _).
  rewrite (writeIndexType_appends _). symmetry.
  rewrite (writeOptions_appends _).
  rewrite (writeIndexType_appends _).
  destruct (unique d), (0 <? length (included d)); by str_norm.
Qed.

Section DumpTable.
Variable ToLower : string -> string.
Variable keywords : list string.

Lemma reservedKeywords_lookup keyword :
  keyword ∈ keywords ->
  is_Some (reservedKeywords ToLower keywords !! ToLower keyword).
Proof.
  unfold reservedKeywords.
  assert (forall l (m : gmap string bool),
            is_Some (m !! ToLower keyword) \/ keyword ∈ l ->
            is_Some (foldl (fun m k => <[ToLower k := true]> m) m l
                     !! ToLower keyword)) as H.
  { induction l as [|k l IH]; intros m; simpl.
    - intros [H|H]; [done|by apply elem_of_nil in H].
    - intros [H|[->|H]%elem_of_cons]; apply IH.
      + left. destruct (decide (ToLower k = ToLower keyword)) as [->|Hne].
        * rewrite lookup_insert_eq. eauto.
        * by rewrite lookup_insert_ne.
      + left. rewrite lookup_insert_eq. eauto.
      + by right. }
  intros Hk. apply H. by right.
Qed.

Lemma getSafeColumnName_keyword name keyword :
  keyword ∈ keywords -> ToLower keyword = ToLower name ->
  getSafeColumnName ToLower keywords name = "[" +:+ name +:+ "]".
Proof.
  intros Hk Hl. unfold getSafeColumnName.
  destruct (reservedKeywords_lookup keyword Hk) as [b Hb].
  rewrite Hl in Hb. by rewrite Hb.
Qed.

(** What the loop body writes after the name and the type of a column. *)
Definition columnTail (col : column) : string :=
  let qb := "" in
  let qb := match getLength col with
            | (length, true) => qb +:+ ("(" +:+ length +:+ ")")
            | (_, false) => qb
            end in
  let qb := if Nullable col then qb else qb +:+ " NOT NULL" in
  let qb := if String.eqb (DefaultName col) "" then qb
            else qb +:+ (" CONSTRAINT " +:+ DefaultName col +:+ " DEFAULT "
                         +:+ DefaultVal col) in
  let qb := match Identity col with
            | Some idn =>
                let qb := qb +:+ (" IDENTITY(" +:+ SeedValue idn +:+ ","
                                  +:+ IncrementValue idn +:+ ")") in
                if NotForReplication idn then qb +:+ " NOT FOR REPLICATION" else qb
            | None => qb
            end in
  match Check_ col with
  | Some chk =>
      let qb := qb +:+ (" CONSTRAINT [" +:+ check_Name chk +:+ "] CHECK") in
      let qb := if check_NotForReplication chk
                then qb +:+ " NOT FOR REPLICATION" else qb in
      qb +:+ (" " +:+ check_Definition chk)
  | None => qb
  end.

Lemma writeColumn_text qb i col :
  writeColumn ToLower keywords qb i col
  = qb +:+ (if 0 <? i then "," else "") +:+ nl +:+ indent
    +:+ getSafeColumnName ToLower keywords (Name col) +:+ " " +:+ dataType col
    +:+ columnTail col.
Proof.
  unfold writeColumn, columnTail.
  destruct (0 <? i), (getLength col) as [len []], (Nullable col),
    (String.eqb (DefaultName col) ""), (Identity col) as [idn|],
    (Check_ col) as [chk|];
    try destruct (NotForReplication idn);
    try destruct (check_NotForReplication chk);
    by str_norm.
Qed.

Lemma writeColumns_app cols : forall qb i,
  writeColumns ToLower keywords qb i cols
  = qb +:+ writeColumns ToLower keywords "" i cols.
Proof.
  induction cols as [|col cols IH]; intros qb i; simpl.
  - by rewrite app_empty_r.
  - rewrite (IH (writeColumn _ _ qb i col)), (IH (writeColumn _ _ "" i col)).
    rewrite !writeColumn_text. by str_norm.
Qed.

(** The text of every column stands in the text of the columns. *)
Lemma writeColumns_occurs cols : forall i j col,
  cols !! j = Some col ->
  occursIn (writeColumn ToLower keywords "" (i + j) col)
           (writeColumns ToLower keywords "" i cols).
Proof.
  induction cols as [|c cols IH]; intros i j col Hj; [done|].
  simpl. rewrite writeColumns_app. destruct j as [|j]; simpl in Hj.
  - injection Hj as ->. rewrite Nat.add_0_r.
    apply occursIn_app_l, occursIn_refl.
  - apply occursIn_app_r. replace (i + S j) with (S i + j) by lia. by apply IH.
Qed.

(** The text between the opening of [CREATE TABLE] and its closing, and the
    text of the [CREATE INDEX] statements after it. *)
Definition tableBody (cols : list column) (indexDefs : list indexDef)
    (foreignDefs : list string) : string :=
  writeColumns ToLower keywords "" 0 cols
  +:+ foldl writePrimaryKey "" indexDefs
  +:+ foldl writeForeignDef "" foreignDefs
  +:+ foldl writeIndex "" indexDefs.

Definition tableTrailer (table : string) (indexDefs : list indexDef) : string :=
  foldl (writeIncludeIndex table) "" indexDefs.

Lemma buildDumpTableDDL_untrimmed table cols indexDefs foreignDefs :
  buildDumpTableDDL ToLower keywords table cols indexDefs foreignDefs
  = TrimSuffix
      (("CREATE TABLE " +:+ table +:+ " (" +:+ tableBody cols indexDefs foreignDefs
        +:+ nl +:+ ");") +:+ nl +:+ tableTrailer table indexDefs) nl.
Proof.
  unfold buildDumpTableDDL, tableBody, tableTrailer. f_equal.
  rewrite (foldl_appends _ (writeIncludeIndex_appends table)).
  rewrite (foldl_appends _ writeIndex_appends).
  rewrite (foldl_appends _ writeForeignDef_appends).
  rewrite (foldl_appends _ writePrimaryKey_appends).
  rewrite writeColumns_app. by str_norm.
Qed.

(** A [CREATE INDEX] statement is written exactly for the indexes that are
    not primary and have included columns, and it ends with a semicolon. *)
Lemma writeIncludeIndex_cases table d :
  (writeIncludeIndex table "" d = "" /\ (primary d = true \/ included d = []))
  \/ (endsWith (writeIncludeIndex table "" d) ";"
      /\ primary d = false /\ included d <> []).
Proof.
  unfold writeIncludeIndex. destruct (included d) as [|x l] eqn:Hinc; simpl.
  - left. split; [done|by right].
  - destruct (primary d).
    + left. split; [done|by left].
    + right. split; [|done]. eexists. reflexivity.
Qed.

Lemma tableTrailer_empty table indexDefs :
  tableTrailer table indexDefs = ""
  <-> forall d, d ∈ indexDefs -> primary d = true \/ included d = [].
Proof.
  unfold tableTrailer. induction indexDefs as [|d ds IH]; simpl.
  - split; [|done]. by intros _ d ?%elem_of_nil.
  - rewrite (foldl_appends _ (writeIncludeIndex_appends table)).
    rewrite app_eq_empty, IH. split.
    + intros [Hd Hds] x [->|Hx]%elem_of_cons; [|by apply Hds].
      destruct (writeIncludeIndex_cases table d) as [[_ H]|[[b Hb] _]]; [done|].
      rewrite Hd in Hb. symmetry in Hb. apply app_eq_empty in Hb as [_ Hb].
      discriminate Hb.
    + intros H. split; [|intros x Hx; apply H; by right].
      destruct (writeIncludeIndex_cases table d) as [[Hd _]|(_ & Hp & Hi)]; [done|].
      destruct (H d) as [H'|H']; [by left|congruence|done].
Qed.

Lemma tableTrailer_end table indexDefs :
  tableTrailer table indexDefs = "" \/ endsWith (tableTrailer table indexDefs) ";".
Proof.
  unfold tableTrailer. induction indexDefs as [|d ds IH] using rev_ind; [by left|].
  rewrite foldl_appends_snoc, (writeIncludeIndex_appends table).
  destruct (writeIncludeIndex_cases table d) as [[-> _]|[[b ->] _]].
  - by rewrite app_empty_r.
  - right. exists (foldl (writeIncludeIndex table) "" ds +:+ b). by str_norm.
Qed.

(** The text of a dumped table: the [CREATE TABLE] statement, closed by
    ["\n);"], and after it, when there is one, the text of the [CREATE INDEX]
    statements. *)
Lemma buildDumpTableDDL_shape table cols indexDefs foreignDefs :
  buildDumpTableDDL ToLower keywords table cols indexDefs foreignDefs
  = ("CREATE TABLE " +:+ table +:+ " (" +:+ tableBody cols indexDefs foreignDefs
     +:+ nl +:+ ");")
    +:+ (if String.eqb (tableTrailer table indexDefs) "" then ""
         else nl +:+ tableTrailer table indexDefs).
Proof.
  rewrite buildDumpTableDDL_untrimmed.
  destruct (tableTrailer_end table indexDefs) as [->|[b Hb]].
  - rewrite (String.eqb_refl ""), !app_empty_r. apply TrimSuffix_app.
  - rewrite Hb. destruct (String.eqb_spec (b +:+ ";") "") as [He|_].
    { apply app_eq_empty in He as [_ He]. discriminate He. }
    apply TrimSuffix_no_suffix.
    rewrite <- !app_assoc_s. apply (HasSuffix_last _ ";"%char "010"%char).
Qed.

Lemma writeColumns_split l1 : forall l2 k,
  writeColumns ToLower keywords "" k (l1 ++ l2)
  = writeColumns ToLower keywords "" k l1
    +:+ writeColumns ToLower keywords "" (k + length l1) l2.
Proof.
  induction l1 as [|c l1 IH]; intros l2 k; simpl.
  - by rewrite Nat.add_0_r.
  - rewrite writeColumns_app, (writeColumns_app l1 (writeColumn _ _ _ _ _)).
    rewrite IH. replace (S k + length l1) with (k + S (length l1)) by lia.
    by str_norm.
Qed.

Lemma writeColumns_middle cols i col :
  cols !! i = Some col ->
  writeColumns ToLower keywords "" 0 cols
  = writeColumns ToLower keywords "" 0 (take i cols)
    +:+ writeColumn ToLower keywords "" i col
    +:+ writeColumns ToLower keywords "" (S i) (drop (S i) cols).
Proof.
  intros (l1 & l2 & -> & ->)%list_elem_of_split_length.
  rewrite take_app_length.
  replace (drop (S (length l1)) (l1 ++ col :: l2)) with l2.
  - rewrite writeColumns_split. simpl.
    by rewrite (writeColumns_app l2 (writeColumn _ _ _ _ _)).
  - rewrite (cons_middle col l1 l2), app_assoc.
    rewrite drop_app_length'; [done|]. rewrite length_app. simpl. lia.
Qed.

(** C4: a column whose name is, letter case apart, a keyword of the
    dialect's keyword table is written in brackets: the text of a dumped
    table holds, after the columns before it, ["[name] type"]. *)
Theorem reserved_column_name_quoted
    (table : string) (cols : list column) (indexDefs : list indexDef)
    (foreignDefs : list string) (i : nat) (col : column) (keyword : string) :
  cols !! i = Some col ->
  keyword ∈ keywords ->
  ToLower keyword = ToLower (Name col) ->
  getSafeColumnName ToLower keywords (Name col) = "[" +:+ Name col +:+ "]"
  /\ exists after,
       buildDumpTableDDL ToLower keywords table cols indexDefs foreignDefs
       = "CREATE TABLE " +:+ table +:+ " ("
         +:+ writeColumns ToLower keywords "" 0 (take i cols)
         +:+ (if 0 <? i then "," else "")
         +:+ nl +:+ indent +:+ "[" +:+ Name col +:+ "]" +:+ " " +:+ dataType col
         +:+ after.
Proof.
  intros Hi Hk Hl.
  pose proof (getSafeColumnName_keyword _ _ Hk Hl) as Hsafe.
  split; [done|].
  rewrite buildDumpTableDDL_shape. unfold tableBody.
  rewrite (writeColumns_middle _ _ _ Hi), writeColumn_text, Hsafe.
  str_norm. eexists. reflexivity.
Qed.

(** C2, as the code has it: the text of a dumped table is a [CREATE TABLE]
    statement closed by ["\n);"], then a trailer.  Every foreign key, every
    primary key and every index without included columns is written inside
    the statement; an index that is not primary and has included columns is
    written in the trailer, as a [CREATE INDEX] statement of its own; the
    trailer is empty exactly when there is no such index. *)
Theorem buildDumpTableDDL_inline_or_trailing
    (table : string) (cols : list column) (indexDefs : list indexDef)
    (foreignDefs : list string) :
  exists body trailer,
    buildDumpTableDDL ToLower keywords table cols indexDefs foreignDefs
    = ("CREATE TABLE " +:+ table +:+ " (" +:+ body +:+ nl +:+ ");") +:+ trailer
    /\ (forall v, v ∈ foreignDefs -> occursIn (writeForeignDef "" v) body)
    /\ (forall d, d ∈ indexDefs -> primary d = true ->
          occursIn (writePrimaryKey "" d) body)
    /\ (forall d, d ∈ indexDefs -> primary d = false -> included d = [] ->
          occursIn (writeIndex "" d) body)
    /\ (forall d, d ∈ indexDefs -> primary d = false -> included d <> [] ->
          occursIn (writeIncludeIndex table "" d) trailer)
    /\ (trailer = ""
        <-> forall d, d ∈ indexDefs -> primary d = true \/ included d = []).
Proof.
  eexists (tableBody cols indexDefs foreignDefs), _.
  split; [apply buildDumpTableDDL_shape|]. unfold tableBody.
  split; [|split; [|split; [|split]]].
  - intros v Hv. apply occursIn_app_r, occursIn_app_r, occursIn_app_l.
    by apply foldl_occurs; [apply writeForeignDef_appends|].
  - intros d Hd _. apply occursIn_app_r, occursIn_app_l.
    by apply foldl_occurs; [apply writePrimaryKey_appends|].
  - intros d Hd _ _. do 3 apply occursIn_app_r.
    by apply foldl_occurs; [apply writeIndex_appends|].
  - intros d Hd Hp Hi.
    destruct (String.eqb_spec (tableTrailer table indexDefs) "") as [He|_].
    + destruct (proj1 (tableTrailer_empty _ _) He d Hd); congruence.
    + apply occursIn_app_r.
      by apply foldl_occurs; [apply writeIncludeIndex_appends|].
  - rewrite <- tableTrailer_empty.
    destruct (String.eqb_spec (tableTrailer table indexDefs) "") as [He|Hne];
      [done|].
    split; [|done]. intros H. discriminate H.
Qed.

End DumpTable.

Definition sampleKeywords : list string := ["SELECT"; "Key"; "table"; "order"].

Definition idColumn : column :=
  {| Name := "id"; dataType := "int"; MaxLength := "4"; Scale := "0";
     Nullable := false; Identity := None; DefaultName := ""; DefaultVal := "";
     Check_ := None |}.

Definition keyColumn : column :=
  {| Name := "KEY"; dataType := "nvarchar"; MaxLength := "40"; Scale := "0";
     Nullable := true; Identity := None; DefaultName := ""; DefaultVal := "";
     Check_ := None |}.

Definition coveringIndex : indexDef :=
  {| name := "ix"; columns := ["[a]"]; primary := false; unique := false;
     indexType := "NONCLUSTERED"; included := ["[b]"]; options := [] |}.

Definition plainIndex : indexDef :=
  {| name := "ux"; columns := ["[a]"; "[b] DESC"]; primary := false;
     unique := true; indexType := "NONCLUSTERED"; included := [];
     options := [ {| option_name := "PAD_INDEX"; option_value := "OFF" |} ] |}.

Definition primaryIndex : indexDef :=
  {| name := "pk"; columns := ["[id]"]; primary := true; unique := true;
     indexType := "CLUSTERED"; included := []; options := [] |}.

Example buildDumpTableDDL_ex :
  buildDumpTableDDL ToLowerASCII sampleKeywords "dbo.t" [idColumn; keyColumn]
    [primaryIndex; plainIndex]
    ["CONSTRAINT [fk] FOREIGN KEY ([id]) REFERENCES dbo.u ([id])"]
  = "CREATE TABLE dbo.t (" +:+ nl
    +:+ "    id int NOT NULL," +:+ nl
    +:+ "    [KEY] nvarchar(20)," +:+ nl
    +:+ "    CONSTRAINT [pk] PRIMARY KEY CLUSTERED ([id])," +:+ nl
    +:+ "    CONSTRAINT [fk] FOREIGN KEY ([id]) REFERENCES dbo.u ([id])," +:+ nl
    +:+ "    INDEX [ux] UNIQUE NONCLUSTERED ([a], [b] DESC) WITH ( PAD_INDEX = OFF )" +:+ nl
    +:+ ");".
Proof. vm_compute. reflexivity. Qed.

Lemma reserved_column_name_quoted_witness :
  getSafeColumnName ToLowerASCII sampleKeywords (Name keyColumn)
  = "[" +:+ Name keyColumn +:+ "]"
  /\ exists after,
       buildDumpTableDDL ToLowerASCII sampleKeywords "dbo.t" [idColumn; keyColumn] [] []
       = "CREATE TABLE " +:+ "dbo.t" +:+ " ("
         +:+ writeColumns ToLowerASCII sampleKeywords "" 0 (take 1 [idColumn; keyColumn])
         +:+ (if 0 <? 1 then "," else "")
         +:+ nl +:+ indent +:+ "[" +:+ Name keyColumn +:+ "]" +:+ " "
         +:+ dataType keyColumn +:+ after.
Proof.
  apply (reserved_column_name_quoted ToLowerASCII sampleKeywords "dbo.t"
           [idColumn; keyColumn] [] [] 1 keyColumn "Key").
  - reflexivity.
  - unfold sampleKeywords. set_solver.
  - reflexivity.
Defined.

Lemma buildDumpTableDDL_inline_or_trailing_witness :
  exists body trailer,
    buildDumpTableDDL ToLowerASCII sampleKeywords "dbo.t" [idColumn]
      [primaryIndex; coveringIndex; plainIndex] ["FK"]
    = ("CREATE TABLE " +:+ "dbo.t" +:+ " (" +:+ body +:+ nl +:+ ");") +:+ trailer
    /\ occursIn (writeForeignDef "" "FK") body
    /\ occursIn (writePrimaryKey "" primaryIndex) body
    /\ occursIn (writeIndex "" plainIndex) body
    /\ occursIn (writeIncludeIndex "dbo.t" "" coveringIndex) trailer.
Proof.
  destruct (buildDumpTableDDL_inline_or_trailing ToLowerASCII sampleKeywords
              "dbo.t" [idColumn] [primaryIndex; coveringIndex; plainIndex] ["FK"])
    as (body & trailer & Heq & Hfk & Hpk & Hix & Hinc & _).
  exists body, trailer. split; [exact Heq|].
  split; [apply Hfk; set_solver|].
  split; [apply Hpk; [set_solver|reflexivity]|].
  split; [apply Hix; [set_solver|reflexivity|reflexivity]|].
  apply Hinc; [set_solver|reflexivity|discriminate].
Defined.

(** C2 fails on an index with included columns: its definition comes after
    the [CREATE TABLE] statement. *)
Lemma buildDumpTableDDL_include_index_not_inline :
  buildDumpTableDDL ToLowerASCII sampleKeywords "dbo.t" [idColumn] [coveringIndex] []
  = "CREATE TABLE dbo.t (" +:+ nl
    +:+ "    id int NOT NULL" +:+ nl
    +:+ ");" +:+ nl +:+ nl
    +:+ "CREATE NONCLUSTERED INDEX [ix] ON dbo.t ([a]) INCLUDE ([b]);"
  /\ ~ all_inline "dbo.t" [coveringIndex] []
         (buildDumpTableDDL ToLowerASCII sampleKeywords "dbo.t" [idColumn]
            [coveringIndex] []).
Proof.
  split; [vm_compute; reflexivity|].
  intros (body & Heq & _).
  assert (HasSuffix
            (buildDumpTableDDL ToLowerASCII sampleKeywords "dbo.t" [idColumn]
               [coveringIndex] []) (nl +:+ ");") = true) as H.
  { rewrite Heq.
    replace ("CREATE TABLE " +:+ "dbo.t" +:+ " (" +:+ body +:+ nl +:+ ");")
      with (("CREATE TABLE " +:+ "dbo.t" +:+ " (" +:+ body) +:+ (nl +:+ ");"))
      by (by rewrite !app_assoc_s).
    apply HasSuffix_app. }
  vm_compute in H. discriminate H.
Qed.

End MssqlFacts.

(** ** The index listing, views and triggers *)

Module IndexFacts.
Import Go Mssql StringFacts GoFacts.

(** [sort.Slice]'s order on the definitions is the order of their names. *)
Lemma notAfter_le (a b : indexDef) :
  notAfter lessByName a b <-> String.le (name a) (name b).
Proof.
  unfold notAfter, lessByName, String.le, String.ltb, String.leb.
  rewrite (String.compare_antisym (name a) (name b)).
  destruct (String.compare (name b) (name a)); simpl; split; done.
Qed.

#[local] Instance notAfter_trans : Transitive (notAfter lessByName).
Proof.
  intros a b c. rewrite !notAfter_le. apply (transitivity (R := String.le)).
Qed.

#[local] Instance notAfter_total : Total (notAfter lessByName).
Proof.
  intros a b. rewrite !notAfter_le. apply (total String.le).
Qed.

Lemma sortSlice_perm (l : list indexDef) : sortSlice lessByName l ≡ₚ l.
Proof. apply merge_sort_Permutation. Qed.

Lemma StronglySorted_mono {A : Type} (R S : relation A) (l : list A) :
  (forall a b, R a b -> S a b) -> StronglySorted R l -> StronglySorted S l.
Proof.
  intros HRS. induction 1 as [|x l Hl IH Hx]; constructor; [done|].
  eapply Forall_impl; [exact Hx|]. intros y. apply HRS.
Qed.

Lemma sortSlice_sorted (l : list indexDef) :
  StronglySorted (fun a b => String.le (name a) (name b)) (sortSlice lessByName l).
Proof.
  eapply StronglySorted_mono; [|apply StronglySorted_merge_sort; apply _].
  intros a b. apply notAfter_le.
Qed.

(** Every definition the map holds is filed under its own name. *)
Definition keyed (m : gmap string indexDef) : Prop :=
  forall k d, m !! k = Some d -> name d = k.

Lemma keyed_insert (m : gmap string indexDef) d :
  keyed m -> keyed (<[name d := d]> m).
Proof.
  intros Hm k d'. destruct (decide (name d = k)) as [<-|Hne].
  - rewrite lookup_insert_eq. by intros [= <-].
  - rewrite lookup_insert_ne by done. apply Hm.
Qed.

Lemma keyed_scanIndexRow m r : keyed m -> keyed (scanIndexRow m r).
Proof.
  intros Hm. unfold scanIndexRow.
  by apply (keyed_insert m (Build_indexDef _ _ _ _ _ _ _)).
Qed.

Lemma keyed_scanIndexRows rows : forall m,
  keyed m -> keyed (foldl scanIndexRow m rows).
Proof.
  induction rows as [|r rows IH]; intros m Hm; simpl; [done|].
  by apply IH, keyed_scanIndexRow.
Qed.

Lemma keyed_scanIndexColumnRow m r m' :
  keyed m -> scanIndexColumnRow m r = Some m' -> keyed m'.
Proof.
  intros Hm. unfold scanIndexColumnRow.
  destruct (m !! column_indexName r) as [d|] eqn:Hd; [|done].
  pose proof (Hm _ _ Hd) as Hn.
  destruct (isIncluded r); intros [= <-]; rewrite <- Hn;
    by apply (keyed_insert m (Build_indexDef _ _ _ _ _ _ _)).
Qed.

Lemma keyed_scanIndexColumnRows rows : forall m m',
  keyed m -> scanIndexColumnRows m rows = Some m' -> keyed m'.
Proof.
  induction rows as [|r rows IH]; intros m m' Hm; simpl.
  - by intros [= <-].
  - destruct (scanIndexColumnRow m r) as [m1|] eqn:H1; [|done].
    apply IH. by eapply keyed_scanIndexColumnRow.
Qed.

(** Rows with distinct index names fill the map alike in any order. *)
Lemma scanIndexRows_perm rows rows' :
  rows ≡ₚ rows' -> NoDup (indexName <$> rows) ->
  forall m, foldl scanIndexRow m rows = foldl scanIndexRow m rows'.
Proof.
  induction 1 as [|x l l' Hp IH|x y l|l l' l'' Hp1 IH1 Hp2 IH2]; intros Hnd m.
  - done.
  - simpl. apply IH. by apply NoDup_cons in Hnd as [_ ?].
  - simpl. f_equal. unfold scanIndexRow. apply insert_insert_ne.
    simpl in Hnd. apply NoDup_cons in Hnd as [Hy _].
    intros Heq. apply Hy. rewrite Heq. by left.
  - rewrite IH1 by done. apply IH2. by rewrite <- Hp1.
Qed.

Lemma foldl_snoc_id {A : Type} (l : list A) : forall acc,
  foldl (fun acc x => acc ++ [x]) acc l = acc ++ l.
Proof.
  induction l as [|x l IH]; intros acc; simpl.
  - by rewrite app_nil_r.
  - by rewrite IH, <- app_assoc.
Qed.

Lemma foldl_snoc_map {A B : Type} (f : A -> B) (l : list A) : forall acc,
  foldl (fun acc x => acc ++ [f x]) acc l = acc ++ (f <$> l).
Proof.
  induction l as [|x l IH]; intros acc; simpl.
  - by rewrite app_nil_r.
  - by rewrite IH, <- app_assoc.
Qed.

(** The sorted listing of a map's definitions does not depend on the order
    in which the map was iterated. *)
Lemma sorted_range_unique (m : gmap string indexDef) rangeOrder1 rangeOrder2 :
  keyed m -> isRangeOrder rangeOrder1 -> isRangeOrder rangeOrder2 ->
  sortSlice lessByName (rangeOrder1 m) = sortSlice lessByName (rangeOrder2 m).
Proof.
  intros Hm H1 H2.
  assert (forall rangeOrder x, isRangeOrder rangeOrder ->
            x ∈ sortSlice lessByName (rangeOrder m) -> m !! name x = Some x) as Hin.
  { intros ro x Hro. rewrite sortSlice_perm, (Hro m).
    intros ([k d] & -> & Hkd%elem_of_map_to_list)%list_elem_of_fmap. simpl.
    by rewrite (Hm _ _ Hkd). }
  eapply (StronglySorted_unique_strong (notAfter lessByName)).
  - intros x1 x2 Hx1%(Hin _ _ H1) Hx2%(Hin _ _ H2) H12%notAfter_le H21%notAfter_le.
    assert (name x1 = name x2) as Hn by (by apply (anti_symm String.le)).
    rewrite Hn in Hx1. congruence.
  - apply StronglySorted_merge_sort; apply _.
  - apply StronglySorted_merge_sort; apply _.
  - by rewrite !sortSlice_perm, (H1 m), (H2 m).
Qed.

Definition valuesOrder (m : gmap string indexDef) : list indexDef :=
  (map_to_list m).*2.

Definition reverseOrder (m : gmap string indexDef) : list indexDef :=
  reverse (map_to_list m).*2.

Lemma valuesOrder_range : isRangeOrder valuesOrder.
Proof. intros m. reflexivity. Qed.

Lemma reverseOrder_range : isRangeOrder reverseOrder.
Proof. intros m. apply reverse_Permutation. Qed.

Definition sampleIndexRow (indexName : string) (isPrimary : bool) : indexRow :=
  {| indexName := indexName; isPrimary := isPrimary; isUnique := isPrimary;
     typeDesc := "NONCLUSTERED"; padIndex := false; fillfactor := "0";
     ignoreDupKey := false; noRecompute := false; incremental := false;
     rowLocks := true; pageLocks := true |}.

Definition sampleColumnRow (indexName columnName : string) : indexColumnRow :=
  {| column_indexName := indexName; columnName := columnName;
     isDescending := false; isIncluded := false |}.

Example getIndexDefs_ex :
  (fun d => (name d, columns d))
    <$> default [] (getIndexDefs valuesOrder
                      [sampleIndexRow "ix_b" false; sampleIndexRow "ix_a" false]
                      [sampleColumnRow "ix_b" "y"; sampleColumnRow "ix_a" "x";
                       sampleColumnRow "ix_b" "z"])
  = [("ix_a", ["[x]"]); ("ix_b", ["[y]"; "[z]"])].
Proof. vm_compute. reflexivity. Qed.

(** C3, as the code has it: only the index listing is sorted by the caller.
    [getIndexDefs] returns the definitions in ascending order of their
    names, the same list whatever the order in which the backend returns the
    rows of [sys.indexes] (their names being distinct) and whatever the
    order in which the map is iterated, the rows of [sys.index_columns]
    being taken in the order given; [Views] and [Triggers] return one entry
    for each row, in the order of the rows. *)
Theorem getIndexDefs_caller_sorted
    (TrimSpace : string -> string)
    (rangeOrder1 rangeOrder2 : gmap string indexDef -> list indexDef)
    (indexRows indexRows' : list indexRow) (columnRows : list indexColumnRow)
    (viewRows : list (string * string)) (triggerRows : list string) :
  isRangeOrder rangeOrder1 -> isRangeOrder rangeOrder2 ->
  indexRows ≡ₚ indexRows' -> NoDup (indexName <$> indexRows) ->
  getIndexDefs rangeOrder1 indexRows columnRows
  = getIndexDefs rangeOrder2 indexRows' columnRows
  /\ (forall indexDefs,
        getIndexDefs rangeOrder1 indexRows columnRows = Some indexDefs ->
        StronglySorted (fun a b => String.le (name a) (name b)) indexDefs)
  /\ Views TrimSpace viewRows = (fun row => viewDDL TrimSpace (snd row)) <$> viewRows
  /\ Triggers triggerRows = triggerRows.
Proof.
  intros H1 H2 Hperm Hnd. unfold getIndexDefs.
  rewrite <- (scanIndexRows_perm _ _ Hperm Hnd).
  split; [|split; [|split]].
  - destruct (scanIndexColumnRows _ columnRows) as [m|] eqn:Hm; [|done].
    rewrite !foldl_snoc_id. simpl. f_equal.
    apply sorted_range_unique; [|done..].
    eapply keyed_scanIndexColumnRows; [|exact Hm].
    apply keyed_scanIndexRows. intros k d Hk. by rewrite lookup_empty in Hk.
  - intros indexDefs.
    destruct (scanIndexColumnRows _ columnRows) as [m|]; [|done].
    intros [= <-]. apply sortSlice_sorted.
  - unfold Views. by rewrite foldl_snoc_map.
  - unfold Triggers. by rewrite foldl_snoc_id.
Qed.

Lemma getIndexDefs_caller_sorted_witness :
  getIndexDefs valuesOrder
    [sampleIndexRow "ix_b" false; sampleIndexRow "ix_a" false]
    [sampleColumnRow "ix_b" "y"; sampleColumnRow "ix_a" "x"]
  = getIndexDefs reverseOrder
      [sampleIndexRow "ix_a" false; sampleIndexRow "ix_b" false]
      [sampleColumnRow "ix_b" "y"; sampleColumnRow "ix_a" "x"]
  /\ (forall indexDefs,
        getIndexDefs valuesOrder
          [sampleIndexRow "ix_b" false; sampleIndexRow "ix_a" false]
          [sampleColumnRow "ix_b" "y"; sampleColumnRow "ix_a" "x"] = Some indexDefs ->
        StronglySorted (fun a b => String.le (name a) (name b)) indexDefs)
  /\ Views TrimSpaceASCII [("v", "CREATE VIEW v AS SELECT 1")]
     = (fun row => viewDDL TrimSpaceASCII (snd row))
         <$> [("v", "CREATE VIEW v AS SELECT 1")]
  /\ Triggers ["CREATE TRIGGER t1"; "CREATE TRIGGER t0"]
     = ["CREATE TRIGGER t1"; "CREATE TRIGGER t0"].
Proof.
  apply (getIndexDefs_caller_sorted TrimSpaceASCII valuesOrder reverseOrder).
  - exact valuesOrder_range.
  - exact reverseOrder_range.
  - apply perm_swap.
  - simpl. apply NoDup_cons. split; [|apply NoDup_singleton].
    intros H%list_elem_of_singleton. discriminate H.
Defined.

(** C3 fails for [Triggers] and [Views], which keep the order of the rows,
    and for the columns of an index, which keep the order of the rows of
    the second query. *)
Lemma row_order_is_observed :
  (["CREATE TRIGGER t1"; "CREATE TRIGGER t0"]
     ≡ₚ ["CREATE TRIGGER t0"; "CREATE TRIGGER t1"]
   /\ Triggers ["CREATE TRIGGER t1"; "CREATE TRIGGER t0"]
      <> Triggers ["CREATE TRIGGER t0"; "CREATE TRIGGER t1"])
  /\ ([("v", "CREATE VIEW v AS SELECT 1"); ("w", "CREATE VIEW w AS SELECT 2")]
        ≡ₚ [("w", "CREATE VIEW w AS SELECT 2"); ("v", "CREATE VIEW v AS SELECT 1")]
      /\ Views TrimSpaceASCII
           [("v", "CREATE VIEW v AS SELECT 1"); ("w", "CREATE VIEW w AS SELECT 2")]
         <> Views TrimSpaceASCII
              [("w", "CREATE VIEW w AS SELECT 2"); ("v", "CREATE VIEW v AS SELECT 1")])
  /\ ([sampleColumnRow "ix" "x"; sampleColumnRow "ix" "y"]
        ≡ₚ [sampleColumnRow "ix" "y"; sampleColumnRow "ix" "x"]
      /\ getIndexDefs valuesOrder [sampleIndexRow "ix" false]
           [sampleColumnRow "ix" "x"; sampleColumnRow "ix" "y"]
         <> getIndexDefs valuesOrder [sampleIndexRow "ix" false]
              [sampleColumnRow "ix" "y"; sampleColumnRow "ix" "x"]).
Proof.
  split; [|split]; (split; [apply perm_swap|]); vm_compute; intros H; discriminate H.
Qed.

End IndexFacts.

(** ** The text of a view *)

Module ViewFacts.
Import Go Mssql StringFacts GoFacts IndexFacts.

(** Whether two spaces stand side by side somewhere in [s]. *)
Fixpoint hasDoubleSpace (s : string) : bool :=
  match s with
  | EmptyString => false
  | String c rest =>
      (Ascii.eqb c " "
       && match rest with
          | String c' _ => Ascii.eqb c' " "
          | EmptyString => false
          end)
      || hasDoubleSpace rest
  end.

Lemma occursIn_double_space s : occursIn "  " s -> hasDoubleSpace s = true.
Proof.
  intros (a & b & ->). induction a as [|c a IH].
  - reflexivity.
  - rewrite app_cons_s. simpl. rewrite IH. apply orb_true_r.
Qed.

Lemma hasByte_RemoveAll s c : hasByte c (RemoveAll s c) = false.
Proof.
  induction s as [|x s IH]; simpl; [done|].
  destruct (Ascii.eqb x c) eqn:Hx; [done|]. simpl. by rewrite Hx.
Qed.

Lemma hasByte_suffixSemicolon_remove s c :
  hasByte c s = false -> hasByte c (suffixSemicolon_remove s) = false.
Proof.
  induction s as [|x s IH]; simpl; [done|].
  intros [Hx Hs]%orb_false_iff. destruct s as [|y s].
  - destruct (Ascii.eqb x ";"); simpl; [done|]. by rewrite Hx.
  - simpl in *. rewrite Hx. by apply IH.
Qed.

Lemma spaces_collapse_cons c s :
  spaces_collapse (String c s)
  = if Ascii.eqb c " " && match s with
                          | String c' _ => Ascii.eqb c' " "
                          | EmptyString => false
                          end
    then spaces_collapse s
    else String c (spaces_collapse s).
Proof.
  simpl. destruct (Ascii.eqb c " "); simpl; [|done].
  destruct s as [|c' s]; [done|]. by destruct (Ascii.eqb c' " ").
Qed.

Lemma hasByte_spaces_collapse s c :
  hasByte c s = false -> hasByte c (spaces_collapse s) = false.
Proof.
  induction s as [|x s IH]; [done|].
  rewrite spaces_collapse_cons. simpl hasByte at 1.
  intros [Hx Hs]%orb_false_iff. destruct (_ && _).
  - by apply IH.
  - simpl. rewrite Hx. by apply IH.
Qed.

(** The first byte of the collapsed text is the first byte of the text. *)
Lemma spaces_collapse_head s :
  match spaces_collapse s, s with
  | String c _, String c' _ => c = c'
  | EmptyString, EmptyString => True
  | _, _ => False
  end.
Proof.
  induction s as [|x s IH]; [done|].
  rewrite spaces_collapse_cons. destruct (_ && _) eqn:Hc; [|done].
  apply andb_true_iff in Hc as [Hx Hs]. destruct s as [|y s]; [done|].
  apply Ascii.eqb_eq in Hx, Hs. subst.
  by destruct (spaces_collapse (String " " s)).
Qed.

Lemma hasDoubleSpace_spaces_collapse s : hasDoubleSpace (spaces_collapse s) = false.
Proof.
  induction s as [|x s IH]; [done|].
  rewrite spaces_collapse_cons. destruct (_ && _) eqn:Hc; [done|].
  simpl. rewrite IH, orb_false_r.
  pose proof (spaces_collapse_head s) as Hh.
  destruct (spaces_collapse s) as [|y t], s as [|y' s']; try done.
  subst y'. exact Hc.
Qed.

Lemma hasDoubleSpace_semicolon s :
  hasDoubleSpace (s +:+ ";") = hasDoubleSpace s.
Proof.
  induction s as [|x s IH]; [done|].
  rewrite app_cons_s. simpl. rewrite IH. f_equal. f_equal.
  destruct s; [|by rewrite app_cons_s]. by rewrite app_nil_s.
Qed.

(** The last byte of a text. *)
Fixpoint lastByte (s : string) : option ascii :=
  match s with
  | EmptyString => None
  | String c rest =>
      match lastByte rest with
      | Some l => Some l
      | None => Some c
      end
  end.

Lemma lastByte_None s : lastByte s = None <-> s = "".
Proof.
  destruct s as [|c s]; simpl; [done|]. by destruct (lastByte s).
Qed.

Lemma HasSuffix_byte s d :
  HasSuffix s (String d "")
  = match lastByte s with
    | Some c => Ascii.eqb c d
    | None => false
    end.
Proof.
  induction s as [|c s IH]; [done|].
  rewrite HasSuffix_cons, IH. simpl.
  destruct s as [|c' s].
  - simpl. by destruct (Ascii.eqb c d).
  - replace (String.eqb (String c' s) "") with false by done.
    destruct (Ascii.eqb c d); simpl; by destruct (lastByte s).
Qed.

Lemma lastByte_spaces_collapse s : lastByte (spaces_collapse s) = lastByte s.
Proof.
  induction s as [|x s IH]; [done|].
  rewrite spaces_collapse_cons. destruct (_ && _) eqn:Hc.
  - rewrite IH. simpl. destruct s as [|y s]; [by rewrite andb_false_r in Hc|].
    simpl. by destruct (lastByte s).
  - simpl. by rewrite IH.
Qed.

Lemma suffixSemicolon_remove_empty s :
  suffixSemicolon_remove s = "" <-> s = "" \/ s = ";".
Proof.
  destruct s as [|c s]; simpl; [by split; [left|]|].
  destruct s as [|c' s].
  - destruct (Ascii.eqb_spec c ";") as [->|Hne]; split; try done.
    + by right.
    + intros [H|[= H]]; done.
  - split; [done|]. intros [H|H]; discriminate H.
Qed.

Lemma suffixSemicolon_remove_cons c c' s :
  suffixSemicolon_remove (String c (String c' s))
  = String c (suffixSemicolon_remove (String c' s)).
Proof. reflexivity. Qed.

(** After the removal the text ends with a semicolon exactly when it ended
    with two before. *)
Lemma HasSuffix_suffixSemicolon_remove s :
  HasSuffix (suffixSemicolon_remove s) ";" = HasSuffix s ";;".
Proof.
  induction s as [|c s IH]; [done|].
  destruct s as [|c' s].
  - by destruct c as [[] [] [] [] [] [] [] []].
  - rewrite suffixSemicolon_remove_cons.
    rewrite (HasSuffix_cons c (suffixSemicolon_remove (String c' s)) ";").
    rewrite (HasSuffix_cons c (String c' s) ";;"), IH.
    assert (String.eqb (String c (suffixSemicolon_remove (String c' s))) ";"
            = String.eqb (String c (String c' s)) ";;") as ->; [|done].
    destruct (String.eqb_spec (String c (suffixSemicolon_remove (String c' s))) ";")
      as [He|Hne].
    + assert (c = ";"%char /\ suffixSemicolon_remove (String c' s) = "")
        as [-> He'] by (by injection He).
      apply suffixSemicolon_remove_empty in He' as [He'|He']; [done|].
      rewrite He'. reflexivity.
    + symmetry. apply String.eqb_neq. intros [= -> -> ->]. by apply Hne.
Qed.

Lemma HasSuffix_semicolon_app s :
  HasSuffix (s +:+ ";") ";;" = HasSuffix s ";".
Proof.
  induction s as [|c s IH]; [done|].
  rewrite app_cons_s.
  rewrite (HasSuffix_cons c (s +:+ ";") ";;"), (HasSuffix_cons c s ";"), IH.
  assert (String.eqb (String c (s +:+ ";")) ";;" = String.eqb (String c s) ";")
    as ->; [|done].
  destruct (String.eqb_spec (String c s) ";") as [[= -> ->]|Hne]; [done|].
  apply String.eqb_neq. intros [= -> He]. apply Hne.
  destruct s as [|c' s]; [done|]. rewrite app_cons_s in He.
  injection He as _ He. destruct s; discriminate He.
Qed.

Example viewDDL_ex1 :
  viewDDL TrimSpaceASCII
    ("  CREATE VIEW v AS" +:+ nl +:+ "SELECT   a,  b FROM t;" +:+ nl)
  = "CREATE VIEW v ASSELECT a, b FROM t;".
Proof. reflexivity. Qed.

Example viewDDL_ex2 :
  viewDDL TrimSpaceASCII "CREATE VIEW v AS SELECT 1" = "CREATE VIEW v AS SELECT 1;".
Proof. reflexivity. Qed.

Section Views.
Variable TrimSpace : string -> string.

Lemma viewDDL_normalised definition :
  HasSuffix (viewDDL TrimSpace definition) ";" = true
  /\ hasByte "010" (viewDDL TrimSpace definition) = false
  /\ ~ occursIn "  " (viewDDL TrimSpace definition)
  /\ HasSuffix (viewDDL TrimSpace definition) ";;"
     = HasSuffix (RemoveAll (TrimSpace definition) "010") ";;".
Proof.
  unfold viewDDL. split; [|split; [|split]].
  - apply HasSuffix_app.
  - rewrite hasByte_app, orb_false_r.
    apply hasByte_spaces_collapse, hasByte_suffixSemicolon_remove,
      hasByte_RemoveAll.
  - intros H%occursIn_double_space.
    by rewrite hasDoubleSpace_semicolon, hasDoubleSpace_spaces_collapse in H.
  - rewrite HasSuffix_semicolon_app, HasSuffix_byte, lastByte_spaces_collapse,
      <- HasSuffix_byte.
    apply HasSuffix_suffixSemicolon_remove.
Qed.

(** C10, as the code has it: every string [Views] returns ends with a
    semicolon, has no newline in it and no two spaces side by side; it ends
    with two semicolons exactly when the definition, trimmed and without its
    newlines, already ended with two, since only one is removed before the
    final one is added. *)
Theorem Views_normalised (rows : list (string * string)) :
  Forall2
    (fun row ddl =>
       HasSuffix ddl ";" = true
       /\ hasByte "010" ddl = false
       /\ ~ occursIn "  " ddl
       /\ HasSuffix ddl ";;" = HasSuffix (RemoveAll (TrimSpace (snd row)) "010") ";;")
    rows (Views TrimSpace rows).
Proof.
  unfold Views. rewrite foldl_snoc_map. simpl.
  induction rows as [|row rows IH]; constructor; [|done].
  apply viewDDL_normalised.
Qed.

End Views.

(** C10 fails on a definition that ends with two semicolons: the string
    returned for it ends with two. *)
Lemma Views_two_semicolons :
  exists ddl,
    ddl ∈ Views TrimSpaceASCII [("v", "CREATE VIEW v AS SELECT 1;;")]
    /\ ddl = "CREATE VIEW v AS SELECT 1;;"
    /\ HasSuffix ddl ";;" = true.
Proof.
  exists "CREATE VIEW v AS SELECT 1;;". split; [|split]; [|done..].
  vm_compute. by left.
Qed.

End ViewFacts.

(** ** mysqldef: the database name and the password *)

Module MysqldefFacts.
Import Mysqldef.

(** What go-flags leaves in the struct when no flag is given. *)
Definition defaultOpts : opts :=
  {| User := "root"; Password := ""; Host := "127.0.0.1"; Port := 3306;
     Socket := ""; Prompt := false; EnableCleartextPlugin := false;
     File := ["-"]; DryRun := false; Export_ := false; SkipDrop := false;
     Help := false; Version := false |}.

(** The struct after [--password=from-flag] and after
    [--password=from-flag --password-prompt]. *)
Definition passwordOpts : opts :=
  {| User := "root"; Password := "from-flag"; Host := "127.0.0.1"; Port := 3306;
     Socket := ""; Prompt := false; EnableCleartextPlugin := false;
     File := ["-"]; DryRun := false; Export_ := false; SkipDrop := false;
     Help := false; Version := false |}.

Definition promptOpts : opts :=
  {| User := "root"; Password := "from-flag"; Host := "127.0.0.1"; Port := 3306;
     Socket := ""; Prompt := true; EnableCleartextPlugin := false;
     File := ["-"]; DryRun := false; Export_ := false; SkipDrop := false;
     Help := false; Version := false |}.

Definition helpOpts : opts :=
  {| User := "root"; Password := ""; Host := "127.0.0.1"; Port := 3306;
     Socket := ""; Prompt := false; EnableCleartextPlugin := false;
     File := ["-"]; DryRun := false; Export_ := false; SkipDrop := false;
     Help := true; Version := false |}.

Definition noEnv (_ : string) : option string := None.

Definition envWithPassword (key : string) : option string :=
  if String.eqb key "MYSQL_PWD" then Some "from-env" else None.

Example parseOptions_ex1 :
  parseOptions (fun _ => Some (defaultOpts, ["shop"])) ParseFiles_spec noEnv None ["shop"]
  = Return
      ({| config_DbName := "shop"; config_User := "root"; config_Password := "";
          config_Host := "127.0.0.1"; config_Port := 3306; config_Socket := "";
          config_MySQLEnableCleartextPlugin := false |},
       {| options_DesiredFile := "-"; options_CurrentFile := [];
          options_DryRun := false; options_Export := false;
          options_SkipDrop := false |}).
Proof. reflexivity. Qed.

Example parseOptions_ex2 :
  parseOptions (fun _ => Some (defaultOpts, [])) ParseFiles_spec noEnv None [] = Exit 1.
Proof. reflexivity. Qed.

Example parseOptions_ex3 :
  parseOptions (fun _ => Some (helpOpts, [])) ParseFiles_spec noEnv None ["--help"]
  = Exit 0.
Proof. reflexivity. Qed.

Section Facts.
Variable ParseArgs : list string -> option (opts * list string).
Variable ParseFiles : list string -> string * list string.
Variable LookupEnv : string -> option string.
Variable ReadPassword : option string.

(** C5, as the code has it.  For an argument list that go-flags accepts and
    in which no [--file] entry supplies the current schema: [--help] and
    [--version] exit with code 0; otherwise no positional argument, or more
    than one, exits with code 1; otherwise [parseOptions] returns a config
    whose [DbName] is the single positional argument, unless the password
    prompt was asked for and reading the password fails, which exits with
    code 1. *)
Theorem parseOptions_database
    (args : list string) (o : opts) (positional : list string) :
  ParseArgs args = Some (o, positional) ->
  snd (ParseFiles (File o)) = [] ->
  (Help o = true \/ Version o = true ->
     parseOptions ParseArgs ParseFiles LookupEnv ReadPassword args = Exit 0)
  /\ (Help o = false -> Version o = false -> length positional <> 1 ->
        parseOptions ParseArgs ParseFiles LookupEnv ReadPassword args = Exit 1)
  /\ (forall database,
        Help o = false -> Version o = false -> positional = [database] ->
        (Prompt o = true -> ReadPassword = None ->
           parseOptions ParseArgs ParseFiles LookupEnv ReadPassword args = Exit 1)
        /\ (Prompt o = false \/ is_Some ReadPassword ->
              exists config options,
                parseOptions ParseArgs ParseFiles LookupEnv ReadPassword args
                = Return (config, options)
                /\ config_DbName config = database)).
Proof.
  intros Hparse Hfiles. unfold parseOptions. rewrite Hparse.
  destruct (ParseFiles (File o)) as [desiredFile currentFile] eqn:Hpf.
  simpl in Hfiles. subst currentFile. simpl.
  split; [|split].
  - intros [-> | ->]; [done|]. by destruct (Help o).
  - intros -> -> Hlen. by destruct positional as [|database [|]].
  - intros database -> -> ->. split.
    + by intros -> ->.
    + intros [-> | [pass ->]].
      * eexists _, _. split; [reflexivity|done].
      * destruct (Prompt o); eexists _, _; (split; [reflexivity|done]).
Qed.

(** C6, as the code has it.  When [parseOptions] gets as far as the
    password: without [--password-prompt] the password of the config is the
    value of [MYSQL_PWD] if that variable is set, and the value of
    [--password] otherwise; with [--password-prompt] it is the password read
    from the terminal, whatever [MYSQL_PWD] and [--password] say. *)
Theorem parseOptions_password
    (args : list string) (o : opts) (positional : list string) :
  ParseArgs args = Some (o, positional) ->
  Help o = false -> Version o = false ->
  (snd (ParseFiles (File o)) = [] -> length positional = 1) ->
  (Prompt o = false ->
     exists config options,
       parseOptions ParseArgs ParseFiles LookupEnv ReadPassword args
       = Return (config, options)
       /\ config_Password config
          = match LookupEnv "MYSQL_PWD" with
            | Some password => password
            | None => Password o
            end)
  /\ (forall pass, Prompt o = true -> ReadPassword = Some pass ->
        exists config options,
          parseOptions ParseArgs ParseFiles LookupEnv ReadPassword args
       = Return (config, options)
          /\ config_Password config = pass).
Proof.
  intros Hparse Hh Hv Hpos. unfold parseOptions. rewrite Hparse, Hh, Hv.
  destruct (ParseFiles (File o)) as [desiredFile currentFile] eqn:Hpf.
  simpl in Hpos.
  assert (exists database,
            (if length currentFile =? 0
             then match positional with
                  | [] => Exit 1
                  | [database] => Return database
                  | _ :: _ :: _ => Exit 1
                  end
             else Return "") = Return database) as [database ->].
  { destruct currentFile as [|f fs]; simpl; [|by eexists].
    specialize (Hpos eq_refl). destruct positional as [|database [|]]; try done.
    by eexists. }
  split.
  - intros ->. eexists _, _. split; [reflexivity|done].
  - intros pass -> ->. eexists _, _. split; [reflexivity|done].
Qed.

End Facts.

Lemma parseOptions_database_witness :
  (Help defaultOpts = true \/ Version defaultOpts = true ->
     parseOptions (fun _ => Some (defaultOpts, ["shop"])) ParseFiles_spec noEnv None
       ["shop"] = Exit 0)
  /\ (Help defaultOpts = false -> Version defaultOpts = false ->
        length ["shop"] <> 1 ->
        parseOptions (fun _ => Some (defaultOpts, ["shop"])) ParseFiles_spec noEnv None
          ["shop"] = Exit 1)
  /\ (forall database,
        Help defaultOpts = false -> Version defaultOpts = false ->
        ["shop"] = [database] ->
        (Prompt defaultOpts = true -> @None string = None ->
           parseOptions (fun _ => Some (defaultOpts, ["shop"])) ParseFiles_spec noEnv
             None ["shop"] = Exit 1)
        /\ (Prompt defaultOpts = false \/ is_Some (@None string) ->
              exists config options,
                parseOptions (fun _ => Some (defaultOpts, ["shop"])) ParseFiles_spec
                  noEnv None ["shop"] = Return (config, options)
                /\ config_DbName config = database)).
Proof.
  apply (parseOptions_database (fun _ => Some (defaultOpts, ["shop"]))
           ParseFiles_spec noEnv None ["shop"] defaultOpts ["shop"]).
  - reflexivity.
  - reflexivity.
Defined.

Lemma parseOptions_password_witness :
  (Prompt passwordOpts = false ->
     exists config options,
       parseOptions (fun _ => Some (passwordOpts, ["shop"])) ParseFiles_spec
         envWithPassword None ["--password=from-flag"; "shop"]
       = Return (config, options)
       /\ config_Password config
          = match envWithPassword "MYSQL_PWD" with
            | Some password => password
            | None => Password passwordOpts
            end)
  /\ (forall pass, Prompt passwordOpts = true -> @None string = Some pass ->
        exists config options,
          parseOptions (fun _ => Some (passwordOpts, ["shop"])) ParseFiles_spec
            envWithPassword None ["--password=from-flag"; "shop"]
          = Return (config, options)
          /\ config_Password config = pass).
Proof.
  apply (parseOptions_password (fun _ => Some (passwordOpts, ["shop"]))
           ParseFiles_spec envWithPassword None ["--password=from-flag"; "shop"]
           passwordOpts ["shop"]).
  - reflexivity.
  - reflexivity.
  - reflexivity.
  - intros _. reflexivity.
Defined.

(** C5 fails when the password prompt cannot be read: one positional
    argument, neither [--help] nor [--version], and yet no config. *)
Lemma parseOptions_prompt_failure_exits :
  snd (ParseFiles_spec (File promptOpts)) = []
  /\ Help promptOpts = false /\ Version promptOpts = false
  /\ parseOptions (fun _ => Some (promptOpts, ["shop"])) ParseFiles_spec noEnv None
       ["--password=from-flag"; "--password-prompt"; "shop"] = Exit 1.
Proof. repeat split. Qed.

(** C6 fails with [--password-prompt]: [MYSQL_PWD] is set, and the password
    of the config is the one typed at the prompt. *)
Lemma parseOptions_prompt_overrides_env :
  exists config options,
    parseOptions (fun _ => Some (promptOpts, ["shop"])) ParseFiles_spec
      envWithPassword (Some "typed")
      ["--password=from-flag"; "--password-prompt"; "shop"]
    = Return (config, options)
    /\ envWithPassword "MYSQL_PWD" = Some "from-env"
    /\ config_Password config = "typed"
    /\ config_Password config <> "from-env".
Proof. eexists _, _. repeat split. discriminate. Qed.

End MysqldefFacts.

(** * Further properties *)

(** ** More on the order of the tables *)

Module TableOrderMore.
Import TableOrder TableOrderFacts.

(** In a finite list in which every element that satisfies [S] has a
    successor in the list that satisfies [S] again, an element that
    satisfies [S] leads to one that is its own successor. *)
Lemma successors_cycle {A : Type} `{EqDecision A} (Q : relation A)
    `{!Transitive Q} (S : A -> Prop) (n : nat) : forall l : list A,
  length l <= n ->
  (forall x, x ∈ l -> S x -> exists y, y ∈ l /\ S y /\ Q x y) ->
  forall x, x ∈ l -> S x -> exists c, c ∈ l /\ S c /\ Q c c.
Proof.
  induction n as [|n IH]; intros l Hlen Hsucc x Hx HSx.
  - destruct l; [by apply elem_of_nil in Hx|simpl in Hlen; lia].
  - destruct (Hsucc x Hx HSx) as (w & Hw & HSw & Hxw).
    destruct (decide (w = x)) as [->|Hne]; [by exists x|].
    set (l' := filter (fun z => z <> x) l).
    assert (w ∈ l') as Hw' by (by apply list_elem_of_filter).
    destruct (IH l') with (x := w) as (c & Hc & HSc & Hcc); [| |done..|].
    + apply list_elem_of_split in Hx as (l1 & l2 & ->).
      unfold l'. rewrite filter_app, filter_cons_False by naive_solver.
      rewrite length_app in *. simpl in Hlen.
      pose proof (length_filter (fun z => z <> x) l1).
      pose proof (length_filter (fun z => z <> x) l2). lia.
    + intros z [Hzx Hz]%list_elem_of_filter HSz.
      destruct (Hsucc z Hz HSz) as (y & Hy & HSy & Hzy).
      destruct (decide (y = x)) as [->|Hyx].
      * exists w. split; [done|]. split; [done|]. by etrans.
      * exists y. split; [by apply list_elem_of_filter|done].
    + exists c. split; [|done]. by apply list_elem_of_filter in Hc as [_ ?].
Qed.

(** Everything [t] reaches through foreign keys, itself included, is in the
    list and lies on no cycle. *)
Definition resolvable (foreignTableMap : gmap string (list string))
    (ts : list string) (t : string) : Prop :=
  forall u, rtc (references foreignTableMap) t u ->
    u ∈ ts /\ ~ cyclic foreignTableMap u.

(** X1: which tables [TableNames] can order.  A table of the list is put in
    the dependency-ordered part exactly when everything it reaches through
    foreign keys is in the list and lies on no cycle; every other table of
    the list is left over at the end. *)
Theorem TableNames_ordered_iff_resolvable
    (ts : list string) (foreignTableMap : gmap string (list string)) :
  exists ordered rest,
    TableNames_fuel (length ts) ts foreignTableMap = Some (ordered ++ rest)
    /\ resolved_in_order foreignTableMap ordered
    /\ (forall t, t ∈ ts ->
          (t ∈ ordered <-> resolvable foreignTableMap ts t)
          /\ (t ∈ rest <-> ~ resolvable foreignTableMap ts t)).
Proof.
  destruct (order_from_start foreignTableMap ts)
    as (st & Hrun & (Hkeys & Hres & Hperm) & Hblocked).
  exists (dependencyOrderedTables st), (tables st).
  unfold TableNames_fuel. rewrite Hrun. split; [done|]. split; [done|].
  assert (forall t, t ∈ dependencyOrderedTables st ->
            resolvable foreignTableMap ts t) as Hfwd.
  { intros t Ht u Htu. assert (u ∈ dependencyOrderedTables st) as Hu.
    { apply rtc_tc in Htu as [<-|Htu]; [done|].
      apply list_elem_of_lookup in Ht as [i Hi].
      pose proof (resolved_reaches _ _ _ _ Hres Htu i Hi) as Hin.
      apply elem_of_take in Hin as (j & Hj & _).
      apply list_elem_of_lookup. eauto. }
    split; [rewrite <- Hperm; apply elem_of_app; by left|].
    intros Hcyc. by apply (cyclic_not_resolved _ _ _ Hres Hcyc). }
  assert (forall t, t ∈ tables st -> ~ resolvable foreignTableMap ts t) as Hbwd.
  { intros t Ht Hgood.
    destruct (successors_cycle (tc (references foreignTableMap))
                (fun u => rtc (references foreignTableMap) t u)
                (length (tables st)) (tables st)) with (x := t)
      as (c & _ & Hc & Hcc); [done| |done..|].
    - intros x Hx HSx.
      destruct (noDeps_false _ _ (Hblocked x Hx)) as (f & Hf & Hnone).
      assert (rtc (references foreignTableMap) t f) as HSf by (by eapply rtc_r).
      exists f. split; [|split; [done|by apply tc_once]].
      destruct (Hgood f HSf) as [Hin _]. rewrite <- Hperm in Hin.
      apply elem_of_app in Hin as [Hin|Hin]; [|done].
      apply Hkeys in Hin. rewrite Hnone in Hin. by destruct Hin.
    - by apply (Hgood c Hc). }
  intros t Ht. rewrite <- Hperm in Ht. apply elem_of_app in Ht. split; split.
  - apply Hfwd.
  - intros Hgood. destruct Ht as [Ht|Ht]; [done|]. by destruct (Hbwd t Ht).
  - apply Hbwd.
  - intros Hbad. destruct Ht as [Ht|Ht]; [|done]. by destruct (Hbad (Hfwd t Ht)).
Qed.

(** X2: when every referenced table is in the list and no table lies on a
    cycle, nothing is left over: [TableNames] returns all the tables, each
    after the tables it references. *)
Theorem TableNames_acyclic_topological
    (ts : list string) (foreignTableMap : gmap string (list string)) :
  (forall t f, t ∈ ts -> references foreignTableMap t f -> f ∈ ts) ->
  (forall t, t ∈ ts -> ~ cyclic foreignTableMap t) ->
  exists out,
    TableNames_fuel (length ts) ts foreignTableMap = Some out
    /\ out ≡ₚ ts
    /\ resolved_in_order foreignTableMap out.
Proof.
  intros Hclosed Hacyclic.
  destruct (order_from_start foreignTableMap ts)
    as (st & Hrun & (Hkeys & Hres & Hperm) & Hblocked).
  assert (forall t, t ∈ tables st -> False) as Hempty.
  { intros t Ht.
    assert (forall u, u ∈ tables st -> u ∈ ts) as Hsub.
    { intros u Hu. rewrite <- Hperm. apply elem_of_app. by right. }
    destruct (successors_cycle (tc (references foreignTableMap))
                (fun _ => True) (length (tables st)) (tables st)) with (x := t)
      as (c & Hc & _ & Hcc); [done| |done..|].
    - intros x Hx _.
      destruct (noDeps_false _ _ (Hblocked x Hx)) as (f & Hf & Hnone).
      exists f. split; [|split; [done|by apply tc_once]].
      pose proof (Hclosed x f (Hsub x Hx) Hf) as Hin. rewrite <- Hperm in Hin.
      apply elem_of_app in Hin as [Hin|Hin]; [|done].
      apply Hkeys in Hin. rewrite Hnone in Hin. by destruct Hin.
    - by apply (Hacyclic c (Hsub c Hc)). }
  assert (tables st = []) as Hnil.
  { destruct (tables st) as [|t rest]; [done|]. destruct (Hempty t). by left. }
  exists (dependencyOrderedTables st). unfold TableNames_fuel.
  rewrite Hrun, Hnil, app_nil_r. rewrite Hnil, app_nil_r in Hperm. done.
Qed.

Lemma TableNames_acyclic_topological_witness :
  exists out,
    TableNames_fuel (length ["dbo.b"; "dbo.a"; "dbo.c"]) ["dbo.b"; "dbo.a"; "dbo.c"]
      {[ "dbo.b" := ["dbo.a"]; "dbo.c" := ["dbo.b"; "dbo.a"] ]} = Some out
    /\ out ≡ₚ ["dbo.b"; "dbo.a"; "dbo.c"]
    /\ resolved_in_order {[ "dbo.b" := ["dbo.a"]; "dbo.c" := ["dbo.b"; "dbo.a"] ]} out.
Proof.
  apply TableNames_acyclic_topological.
  - intros t f Ht. unfold references, foreignTables.
    rewrite !elem_of_cons in Ht.
    destruct Ht as [->|[->|[->|Ht]]]; [| | |by apply elem_of_nil in Ht];
      match goal with
      | |- _ ∈ ?l -> _ => let l' := eval vm_compute in l in change l with l'
      end;
      rewrite ?elem_of_cons, ?elem_of_nil; tauto.
  - intros t Ht Hcyc.
    destruct (order_from_start
                {[ "dbo.b" := ["dbo.a"]; "dbo.c" := ["dbo.b"; "dbo.a"] ]}
                ["dbo.b"; "dbo.a"; "dbo.c"]) as (st & Hrun & Hinv & _).
    vm_compute in Hrun. injection Hrun as <-.
    destruct Hinv as (_ & Hres & _).
    apply (cyclic_not_resolved _ _ _ Hres Hcyc). simpl.
    rewrite !elem_of_cons in *. tauto.
Defined.

Lemma scanTables_names rows :
  scanTables rows = (fun row => fst row +:+ "." +:+ snd row) <$> rows.
Proof.
  unfold scanTables.
  assert (forall acc,
            foldl (fun acc row => acc ++ [fst row +:+ "." +:+ snd row]) acc rows
            = acc ++ ((fun row => fst row +:+ "." +:+ snd row) <$> rows)) as H.
  { induction rows as [|row rows IH]; intros acc; simpl.
    - by rewrite app_nil_r.
    - by rewrite IH, <- app_assoc. }
  apply H.
Qed.

(** The map built before the ordering holds, for each table of the list and
    for no other name, what [getForeignDefs] reports for it. *)
Lemma buildForeignTableMap_lookup getForeignDefs ts t :
  buildForeignTableMap getForeignDefs ts !! t
  = if decide (t ∈ ts) then Some (getForeignDefs t) else None.
Proof.
  unfold buildForeignTableMap.
  assert (forall m : gmap string (list string),
            foldl (fun m tableName => <[tableName := getForeignDefs tableName]> m)
                  m ts !! t
            = if decide (t ∈ ts) then Some (getForeignDefs t) else m !! t) as H.
  { induction ts as [|x ts IH]; intros m; simpl.
    - destruct (decide (t ∈ [])) as [Hin|_]; [by apply elem_of_nil in Hin|done].
    - rewrite IH.
      destruct (decide (t ∈ ts)) as [Hin|Hnin],
               (decide (t ∈ x :: ts)) as [Hin'|Hnin']; try done.
      + destruct Hnin'. by right.
      + apply elem_of_cons in Hin' as [->|?]; [|done]. apply lookup_insert_eq.
      + rewrite lookup_insert_ne; [done|]. intros ->. apply Hnin'. by left. }
  rewrite H. by destruct (decide (t ∈ ts)).
Qed.

(** X3: [TableNames] as a whole, from the rows of [sys.objects] and from
    what [getForeignDefs] reports for each table.  It returns the qualified
    names [schema.name] of the rows, none lost and none duplicated: first
    tables that each stand after all the tables [getForeignDefs] reports
    for them, then tables that each still wait for one of theirs. *)
Theorem TableNames_of_rows
    (rows : list (string * string)) (getForeignDefs : string -> list string) :
  exists ordered rest,
    TableNames rows getForeignDefs = Some (ordered ++ rest)
    /\ ordered ++ rest ≡ₚ (fun row => fst row +:+ "." +:+ snd row) <$> rows
    /\ (forall i t, ordered !! i = Some t ->
          forall f, f ∈ getForeignDefs t -> f ∈ take i ordered)
    /\ (forall t, t ∈ rest -> exists f, f ∈ getForeignDefs t /\ f ∉ ordered).
Proof.
  unfold TableNames. rewrite <- scanTables_names.
  set (ts := scanTables rows).
  set (m := buildForeignTableMap getForeignDefs ts).
  destruct (order_from_start m ts)
    as (st & Hrun & (Hkeys & Hres & Hperm) & Hblocked).
  assert (forall t, t ∈ ts -> foreignTables m t = getForeignDefs t) as Hm.
  { intros t Ht. unfold foreignTables, m.
    by rewrite buildForeignTableMap_lookup, decide_True. }
  assert (forall t, t ∈ dependencyOrderedTables st ++ tables st -> t ∈ ts) as Hin.
  { intros t Ht. by rewrite <- Hperm. }
  exists (dependencyOrderedTables st), (tables st).
  unfold TableNames_fuel. rewrite Hrun. split; [done|]. split; [done|]. split.
  - intros i t Hi f Hf. apply (Hres i t Hi). unfold references.
    rewrite Hm; [done|]. apply Hin, elem_of_app. left.
    apply list_elem_of_lookup. eauto.
  - intros t Ht. destruct (noDeps_false _ _ (Hblocked t Ht)) as (f & Hf & Hnone).
    rewrite Hm in Hf by (apply Hin, elem_of_app; by right).
    exists f. split; [done|]. intros Hfo%Hkeys. rewrite Hnone in Hfo.
    by destruct Hfo.
Qed.

End TableOrderMore.

(** ** More on table names, foreign keys and the dumped text *)

Module MssqlMore.
Import Go Mssql MssqlForeign StringFacts GoFacts MssqlFacts.

Lemma cut_Some_inv s sep : forall before after,
  cut s sep = Some (before, after) ->
  s = before +:+ String sep after /\ hasByte sep before = false.
Proof.
  induction s as [|c s IH]; intros before after; simpl; [done|].
  destruct (Ascii.eqb_spec c sep) as [->|Hne].
  - by intros [= <- <-].
  - destruct (cut s sep) as [[b a]|]; [|done]. intros [= <- <-].
    destruct (IH b a eq_refl) as [-> Hb]. split; [done|]. simpl.
    rewrite Hb, orb_false_r. by apply Ascii.eqb_neq.
Qed.

Lemma cut_None_inv s sep : cut s sep = None -> hasByte sep s = false.
Proof.
  induction s as [|c s IH]; simpl; [done|].
  destruct (Ascii.eqb c sep); [done|].
  destruct (cut s sep) as [[b a]|]; [done|]. intros _. by apply IH.
Qed.

(** X4: [splitTableName] read backwards.  The schema it returns never holds
    a ["."]; when the name has a ["."], schema and table joined by a ["."]
    give the name back, and when it has none, the table is the name and the
    schema is [dbo]. *)
Theorem splitTableName_rejoin (table : string) :
  hasByte "." (fst (splitTableName table)) = false
  /\ (if hasByte "." table
      then fst (splitTableName table) +:+ "." +:+ snd (splitTableName table) = table
      else splitTableName table = ("dbo", table)).
Proof.
  unfold splitTableName, SplitN_2.
  destruct (cut table ".") as [[before after]|] eqn:Hcut; simpl.
  - apply cut_Some_inv in Hcut as [-> Hb]. split; [done|].
    by rewrite hasByte_app, Hb.
  - apply cut_None_inv in Hcut. by rewrite Hcut.
Qed.

Lemma scanForeignKeyRows_names schema rows : forall defs names,
  snd (foldl (scanForeignKeyRow schema) (defs, names) rows)
  = names ++ ((fun r => schema +:+ "." +:+ foreignTableName r) <$> rows)
  /\ length (fst (foldl (scanForeignKeyRow schema) (defs, names) rows))
     = length defs + length rows.
Proof.
  induction rows as [|r rows IH]; intros defs names; simpl.
  - rewrite app_nil_r. split; [done|lia].
  - destruct (IH (defs ++ [
      (if notForReplication r
       then ("CONSTRAINT [" +:+ constraintName r +:+ "] FOREIGN KEY (["
             +:+ fk_columnName r +:+ "]) REFERENCES "
             +:+ (schema +:+ "." +:+ foreignTableName r) +:+ " (["
             +:+ foreignColumnName r +:+ "]) ON UPDATE "
             +:+ ReplaceByte (foreignUpdateRule r) "_" " " +:+ " ON DELETE "
             +:+ ReplaceByte (foreignDeleteRule r) "_" " ")
            +:+ " NOT FOR REPLICATION"
       else "CONSTRAINT [" +:+ constraintName r +:+ "] FOREIGN KEY (["
            +:+ fk_columnName r +:+ "]) REFERENCES "
            +:+ (schema +:+ "." +:+ foreignTableName r) +:+ " (["
            +:+ foreignColumnName r +:+ "]) ON UPDATE "
            +:+ ReplaceByte (foreignUpdateRule r) "_" " " +:+ " ON DELETE "
            +:+ ReplaceByte (foreignDeleteRule r) "_" " ")])
      (names ++ [schema +:+ "." +:+ foreignTableName r])) as [IH1 IH2].
    rewrite IH1, IH2, <- app_assoc, length_app. simpl. split; [done|lia].
Qed.

(** X5: [getForeignDefs] returns one definition and one referenced table
    for each row, in the order of the rows.  Each referenced table is named
    with the schema of the referencing table ([dbo] when its name has
    none), whatever schema the referenced table is in, and [splitTableName]
    takes that name apart again into this schema and the referenced table's
    own name. *)
Theorem getForeignDefs_names (table : string) (rows : list foreignKeyRow) :
  length (fst (getForeignDefs table rows)) = length rows
  /\ Forall2
       (fun r name =>
          name = fst (splitTableName table) +:+ "." +:+ foreignTableName r
          /\ splitTableName name
             = (fst (splitTableName table), foreignTableName r))
       rows (snd (getForeignDefs table rows)).
Proof.
  unfold getForeignDefs.
  destruct (splitTableName_rejoin table) as [Hschema _].
  destruct (splitTableName table) as [schema tbl]. simpl in *.
  destruct (scanForeignKeyRows_names schema rows [] []) as [-> ->].
  split; [done|]. simpl. apply Forall2_fmap_r, Forall_Forall2_diag, Forall_forall.
  intros r _. split; [done|].
  unfold splitTableName, SplitN_2.
  change ("." +:+ foreignTableName r) with (String "."%char (foreignTableName r)).
  by rewrite cut_first.
Qed.

Section DumpMore.
Variable ToLower : string -> string.
Variable keywords : list string.

Lemma reservedKeywords_None x :
  (forall keyword, keyword ∈ keywords -> ToLower keyword <> x) ->
  reservedKeywords ToLower keywords !! x = None.
Proof.
  unfold reservedKeywords.
  assert (forall l (m : gmap string bool),
            m !! x = None ->
            (forall keyword, keyword ∈ l -> ToLower keyword <> x) ->
            foldl (fun m k => <[ToLower k := true]> m) m l !! x = None) as H.
  { induction l as [|k l IH]; intros m Hm Hl; simpl; [done|].
    apply IH.
    - rewrite lookup_insert_ne; [done|]. apply Hl. by left.
    - intros keyword Hk. apply Hl. by right. }
  intros Hk. by apply H.
Qed.

(** X6: a column whose name is, letter case apart, no keyword of the
    keyword table is written as it is, without brackets. *)
Theorem plain_column_name_unquoted
    (table : string) (cols : list column) (indexDefs : list indexDef)
    (foreignDefs : list string) (i : nat) (col : column) :
  cols !! i = Some col ->
  (forall keyword, keyword ∈ keywords -> ToLower keyword <> ToLower (Name col)) ->
  getSafeColumnName ToLower keywords (Name col) = Name col
  /\ exists after,
       buildDumpTableDDL ToLower keywords table cols indexDefs foreignDefs
       = "CREATE TABLE " +:+ table +:+ " ("
         +:+ writeColumns ToLower keywords "" 0 (take i cols)
         +:+ (if 0 <? i then "," else "")
         +:+ nl +:+ indent +:+ Name col +:+ " " +:+ dataType col
         +:+ after.
Proof.
  intros Hi Hk.
  assert (getSafeColumnName ToLower keywords (Name col) = Name col) as Hsafe.
  { unfold getSafeColumnName. by rewrite reservedKeywords_None. }
  split; [done|].
  rewrite buildDumpTableDDL_shape. unfold tableBody.
  rewrite (writeColumns_middle _ _ _ _ _ Hi), writeColumn_text, Hsafe.
  str_norm. eexists. reflexivity.
Qed.

(** X7: the text of a dumped table starts with [CREATE TABLE], the name of
    the table and an opening parenthesis; it ends with a semicolon and never
    with a newline, whatever the columns, indexes and foreign keys are. *)
Theorem buildDumpTableDDL_frame
    (table : string) (cols : list column) (indexDefs : list indexDef)
    (foreignDefs : list string) :
  (exists rest,
     buildDumpTableDDL ToLower keywords table cols indexDefs foreignDefs
     = "CREATE TABLE " +:+ table +:+ " (" +:+ rest)
  /\ HasSuffix (buildDumpTableDDL ToLower keywords table cols indexDefs foreignDefs)
       ";" = true
  /\ HasSuffix (buildDumpTableDDL ToLower keywords table cols indexDefs foreignDefs)
       nl = false.
Proof.
  rewrite buildDumpTableDDL_shape.
  destruct (String.eqb_spec (tableTrailer table indexDefs) "") as [He|Hne].
  - rewrite app_empty_r. split; [|split].
    + str_norm. eexists. reflexivity.
    + change (");") with (")" +:+ ";"). rewrite <- !app_assoc_s.
      apply (HasSuffix_app _ ";").
    + change (");") with (")" +:+ ";"). rewrite <- !app_assoc_s.
      apply (HasSuffix_last _ ";"%char "010"%char).
  - destruct (tableTrailer_end table indexDefs) as [He|[b Hb]]; [done|].
    rewrite Hb. split; [|split].
    + str_norm. eexists. reflexivity.
    + rewrite <- !app_assoc_s. apply (HasSuffix_app _ ";").
    + rewrite <- !app_assoc_s. apply (HasSuffix_last _ ";"%char "010"%char).
Qed.

End DumpMore.

Definition sampleForeignKeyRow : foreignKeyRow :=
  {| constraintName := "fk_order_user"; fk_columnName := "user_id";
     foreignTableName := "users"; foreignColumnName := "id";
     foreignUpdateRule := "NO_ACTION"; foreignDeleteRule := "SET_NULL";
     notForReplication := false |}.

Example getForeignDefs_ex :
  getForeignDefs "sales.orders" [sampleForeignKeyRow]
  = (["CONSTRAINT [fk_order_user] FOREIGN KEY ([user_id]) REFERENCES sales.users ([id])"
      +:+ " ON UPDATE NO ACTION ON DELETE SET NULL"],
     ["sales.users"]).
Proof. reflexivity. Qed.

Lemma plain_column_name_unquoted_witness :
  getSafeColumnName ToLowerASCII sampleKeywords (Name idColumn) = Name idColumn
  /\ exists after,
       buildDumpTableDDL ToLowerASCII sampleKeywords "dbo.t" [keyColumn; idColumn] [] []
       = "CREATE TABLE " +:+ "dbo.t" +:+ " ("
         +:+ writeColumns ToLowerASCII sampleKeywords "" 0 (take 1 [keyColumn; idColumn])
         +:+ (if 0 <? 1 then "," else "")
         +:+ nl +:+ indent +:+ Name idColumn +:+ " " +:+ dataType idColumn
         +:+ after.
Proof.
  apply (plain_column_name_unquoted ToLowerASCII sampleKeywords "dbo.t"
           [keyColumn; idColumn] [] [] 1 idColumn).
  - reflexivity.
  - intros keyword Hk. unfold sampleKeywords in Hk.
    rewrite !elem_of_cons in Hk.
    destruct Hk as [->|[->|[->|[->|Hk]]]]; [discriminate..|].
    by apply elem_of_nil in Hk.
Defined.

End MssqlMore.

(** ** More on the index listing *)

Module IndexMore.
Import Go Mssql StringFacts GoFacts MssqlFacts IndexFacts.

(** The options [getIndexDefs] gives to the index of a row. *)
Definition indexOptions (r : indexRow) : list indexOption :=
  [ {| option_name := "PAD_INDEX"; option_value := boolToOnOff (padIndex r) |};
    {| option_name := "IGNORE_DUP_KEY"; option_value := boolToOnOff (ignoreDupKey r) |};
    {| option_name := "STATISTICS_NORECOMPUTE";
       option_value := boolToOnOff (noRecompute r) |};
    {| option_name := "STATISTICS_INCREMENTAL";
       option_value := boolToOnOff (incremental r) |};
    {| option_name := "ALLOW_ROW_LOCKS"; option_value := boolToOnOff (rowLocks r) |};
    {| option_name := "ALLOW_PAGE_LOCKS"; option_value := boolToOnOff (pageLocks r) |} ]
  ++ (if String.eqb (fillfactor r) "0" then []
      else [ {| option_name := "FILLFACTOR"; option_value := fillfactor r |} ]).

(** The definition an index row puts in the map, before any column. *)
Definition rowDefinition (r : indexRow) : indexDef :=
  {| name := indexName r; columns := []; primary := isPrimary r;
     unique := isUnique r; indexType := typeDesc r; included := [];
     options := indexOptions r |}.

(** The text of a key column and of an included column. *)
Definition keyColumnText (r : indexColumnRow) : string :=
  ("[" +:+ columnName r +:+ "]") +:+ (if isDescending r then " DESC" else "").

Definition includedColumnText (r : indexColumnRow) : string :=
  "[" +:+ columnName r +:+ "]".

(** The key columns and the included columns of the index [k], in the order
    of the rows. *)
Definition keyColumns (k : string) (rows : list indexColumnRow) : list string :=
  keyColumnText
    <$> filter (fun r => column_indexName r = k /\ isIncluded r = false) rows.

Definition includedColumns (k : string) (rows : list indexColumnRow) : list string :=
  includedColumnText
    <$> filter (fun r => column_indexName r = k /\ isIncluded r = true) rows.

(** [d'] is [d] with the columns of the rows added. *)
Definition extends (k : string) (rows : list indexColumnRow) (d d' : indexDef)
    : Prop :=
  name d' = name d /\ primary d' = primary d /\ unique d' = unique d
  /\ indexType d' = indexType d /\ options d' = options d
  /\ columns d' = columns d ++ keyColumns k rows
  /\ included d' = included d ++ includedColumns k rows.

Lemma scanIndexRow_insert m r :
  scanIndexRow m r = <[indexName r := rowDefinition r]> m.
Proof.
  unfold scanIndexRow, rowDefinition, indexOptions.
  by destruct (String.eqb (fillfactor r) "0").
Qed.

Lemma scanIndexRows_lookup rows : forall (m : gmap string indexDef) k d,
  foldl scanIndexRow m rows !! k = Some d ->
  m !! k = Some d
  \/ exists r, r ∈ rows /\ indexName r = k /\ d = rowDefinition r.
Proof.
  induction rows as [|r rows IH]; intros m k d; simpl; [by left|].
  intros [H|(r' & Hr' & Hk & Hd)]%IH.
  - rewrite scanIndexRow_insert in H.
    destruct (decide (indexName r = k)) as [<-|Hne].
    + rewrite lookup_insert_eq in H. injection H as <-.
      right. exists r. split; [by left|done].
    + rewrite lookup_insert_ne in H by done. by left.
  - right. exists r'. split; [by right|done].
Qed.

Lemma scanIndexRows_is_Some rows : forall (m : gmap string indexDef) k,
  is_Some (foldl scanIndexRow m rows !! k)
  <-> is_Some (m !! k) \/ k ∈ indexName <$> rows.
Proof.
  induction rows as [|r rows IH]; intros m k; simpl.
  - split; [by left|]. intros [H|H]; [done|by apply elem_of_nil in H].
  - rewrite IH, scanIndexRow_insert, elem_of_cons.
    destruct (decide (indexName r = k)) as [<-|Hne].
    + rewrite lookup_insert_eq. split; [|by eauto]. intros _. right. by left.
    + rewrite lookup_insert_ne by done. split.
      * intros [H|H]; [by left|right; by right].
      * intros [H|[H|H]]; [by left|congruence|by right].
Qed.

Lemma extends_refl k d : extends k [] d d.
Proof.
  unfold extends, keyColumns, includedColumns. simpl.
  by rewrite !app_nil_r.
Qed.

Lemma extends_cons k r rows d d1 d' :
  extends k [r] d d1 -> extends k rows d1 d' -> extends k (r :: rows) d d'.
Proof.
  unfold extends, keyColumns, includedColumns.
  intros (H1 & H2 & H3 & H4 & H5 & H6 & H7) (G1 & G2 & G3 & G4 & G5 & G6 & G7).
  rewrite G1, G2, G3, G4, G5, G6, G7, H1, H2, H3, H4, H5, H6, H7.
  repeat split; try done.
  - rewrite <- app_assoc, <- fmap_app. f_equal. f_equal.
    by rewrite <- filter_app.
  - rewrite <- app_assoc, <- fmap_app. f_equal. f_equal.
    by rewrite <- filter_app.
Qed.

(** One row of the second query adds its column to the index it names and
    leaves every other entry of the map alone. *)
Lemma scanIndexColumnRow_step m r m' :
  scanIndexColumnRow m r = Some m' ->
  forall k,
    (m !! k = None -> m' !! k = None)
    /\ (forall d, m !! k = Some d ->
          exists d', m' !! k = Some d' /\ extends k [r] d d').
Proof.
  unfold scanIndexColumnRow.
  destruct (m !! column_indexName r) as [d0|] eqn:Hd0; [|done].
  intros Hm' k. destruct (decide (column_indexName r = k)) as [<-|Hne].
  - split; [congruence|]. intros d Hd. rewrite Hd0 in Hd. injection Hd as ->.
    unfold extends, keyColumns, includedColumns, keyColumnText, includedColumnText.
    destruct (isIncluded r) eqn:Hinc; injection Hm' as <-;
      rewrite lookup_insert_eq; eexists; (split; [reflexivity|]); simpl;
      rewrite !filter_cons, Hinc; simpl.
    + rewrite decide_False by (intros [_ ?]; done).
      rewrite decide_True by done. simpl. by rewrite app_nil_r.
    + rewrite decide_True by done.
      rewrite decide_False by (intros [_ ?]; done). simpl.
      rewrite app_nil_r. by destruct (isDescending r); rewrite ?app_empty_r.
  - assert (m' !! k = m !! k) as ->.
    { destruct (isIncluded r); injection Hm' as <-; by rewrite lookup_insert_ne. }
    split; [done|]. intros d Hd. exists d. split; [done|].
    unfold extends, keyColumns, includedColumns.
    rewrite !filter_cons, !decide_False by (intros [? _]; done).
    simpl. by rewrite !app_nil_r.
Qed.

Lemma scanIndexColumnRows_steps rows : forall m m',
  scanIndexColumnRows m rows = Some m' ->
  forall k,
    (m !! k = None -> m' !! k = None)
    /\ (forall d, m !! k = Some d ->
          exists d', m' !! k = Some d' /\ extends k rows d d').
Proof.
  induction rows as [|r rows IH]; intros m m'; simpl.
  - intros [= <-] k. split; [done|]. intros d Hd. exists d.
    split; [done|apply extends_refl].
  - destruct (scanIndexColumnRow m r) as [m1|] eqn:H1; [|done].
    intros Hrest k.
    destruct (scanIndexColumnRow_step _ _ _ H1 k) as [Hn1 Hs1].
    destruct (IH _ _ Hrest k) as [Hn Hs]. split; [by auto|].
    intros d Hd. destruct (Hs1 d Hd) as (d1 & Hd1 & He1).
    destruct (Hs d1 Hd1) as (d' & Hd' & He). exists d'.
    split; [done|by eapply extends_cons].
Qed.

(** The second loop stops short exactly when a row names an index that the
    map does not hold. *)
Lemma scanIndexColumnRows_None rows : forall m,
  scanIndexColumnRows m rows = None
  <-> exists r, r ∈ rows /\ m !! column_indexName r = None.
Proof.
  induction rows as [|r rows IH]; intros m; simpl.
  - split; [done|]. by intros (r & ?%elem_of_nil & _).
  - destruct (scanIndexColumnRow m r) as [m1|] eqn:H1.
    + rewrite IH. assert (is_Some (m !! column_indexName r)) as Hr.
      { unfold scanIndexColumnRow in H1.
        by destruct (m !! column_indexName r). }
      split.
      * intros (r' & Hr' & Hnone). exists r'. split; [by right|].
        destruct (m !! column_indexName r') as [d|] eqn:Hd; [|done].
        destruct (scanIndexColumnRow_step _ _ _ H1 (column_indexName r'))
          as [_ Hs]. destruct (Hs d Hd) as (d' & Hd' & _). congruence.
      * intros (r' & [->|Hr']%elem_of_cons & Hnone).
        { rewrite Hnone in Hr. by destruct Hr. }
        exists r'. split; [done|].
        by apply (scanIndexColumnRow_step _ _ _ H1 (column_indexName r')).
    + split; [|done]. intros _. exists r. split; [by left|].
      unfold scanIndexColumnRow in H1.
      destruct (m !! column_indexName r); [by destruct (isIncluded r)|done].
Qed.

End IndexMore.
